(** * The css selector builder of [05-objects-tasks.js]

    A shallow embedding of [cssSelectorBuilder]: the facade object, the
    class returned by [SelectorClassConstructor], the class returned by
    [CombineClassConstructor], and the array [validArr] that the facade
    shares between all selector instances.

    Objects live in a heap and are passed around as references; the
    methods are computations in a state-and-exception monad, so that what
    a method has written before it throws stays written. *)

From Stdlib Require Import ZArith Lia.
From stdpp Require Import base list strings.

(** ** JavaScript values, exceptions, completions *)

Definition loc := nat.

(** The values a variable of the builder's callers can hold. *)
Inductive jsval :=
| undefined
| null
| jstr (s : string)
| ref (l : loc).

Inductive exn :=
| Error (message : string)
| TypeError (message : string).

Inductive completion (A : Type) :=
| Return (a : A)
| Throw (e : exn).
Arguments Return {A} a.
Arguments Throw {A} e.

(** [if (v)] *)
Definition truthy (v : jsval) : bool :=
  match v with
  | undefined | null => false
  | jstr s => negb (String.eqb s "")
  | ref _ => true
  end.

(** The string that [s += v] appends. *)
Definition ToString (v : jsval) : string :=
  match v with
  | undefined => "undefined"
  | null => "null"
  | jstr s => s
  | ref _ => "[object Object]"
  end.

(** ** Array methods used by the validator *)

(** [arr.indexOf(item)]: the first index holding [item], or -1. *)
Definition indexOf (arr : list string) (item : string) : Z :=
  match list_find (λ x, x = item) arr with
  | Some (i, _) => Z.of_nat i
  | None => (-1)%Z
  end.

(** [arr.lastIndexOf(item)]: the array is searched backwards from its
    last position. *)
Definition lastIndexOf (arr : list string) (item : string) : Z :=
  match list_find (λ x, x = item) (reverse arr) with
  | Some (i, _) => (Z.of_nat (length arr) - 1 - Z.of_nat i)%Z
  | None => (-1)%Z
  end.

(** [arr.slice(idx)] *)
Definition slice {A} (idx : nat) (arr : list A) : list A := drop idx arr.

(** [arr.forEach((item, idx, initArr) => ...)] with a callback that may
    throw: the first exception ends the iteration. *)
Fixpoint forEach_from {A} (callback : A → nat → list A → completion unit)
    (initArr : list A) (idx : nat) (rest : list A) : completion unit :=
  match rest with
  | [] => Return tt
  | item :: rest' =>
      match callback item idx initArr with
      | Return _ => forEach_from callback initArr (S idx) rest'
      | Throw e => Throw e
      end
  end.

Definition forEach {A} (arr : list A)
    (callback : A → nat → list A → completion unit) : completion unit :=
  forEach_from callback arr 0 arr.

(** ** The builder's objects and its state *)

(** The six method names the facade passes to [SelectorClassConstructor]. *)
Inductive method :=
| Element | Id | Class | Attr | PseudoClass | PseudoElement.

(** The string each method pushes on [validArr]. *)
Definition name (m : method) : string :=
  match m with
  | Element => "element"
  | Id => "id"
  | Class => "class"
  | Attr => "attr"
  | PseudoClass => "pseudoClass"
  | PseudoElement => "pseudoElement"
  end.

Inductive object :=
| SelectorObject (method : method) (value : string) (classResStr : string)
| CombineObject (selector1 : jsval) (combinator : string) (selector2 : jsval)
    (combResStr : string).

(** [validArr] is a property of the facade object itself: one array for
    all selectors. *)
Record state := State {
  validArr : list string;
  heap : list object
}.

Definition set_validArr (arr : list string) (σ : state) : state :=
  {| validArr := arr; heap := heap σ |}.

Definition set_heap (h : list object) (σ : state) : state :=
  {| validArr := validArr σ; heap := h |}.

(** ** The monad of method bodies *)

Definition M (A : Type) : Type := state → completion A * state.

Instance M_ret : MRet M := λ A a σ, (Return a, σ).

Instance M_bind : MBind M := λ A B k c σ,
  match c σ with
  | (Return a, σ') => k a σ'
  | (Throw e, σ') => (Throw e, σ')
  end.

Definition throw {A} (e : exn) : M A := λ σ, (Throw e, σ).

Definition lift {A} (c : completion A) : M A := λ σ, (c, σ).

(** [new C()]: the fresh object gets the next free location. *)
Definition alloc (o : object) : M loc := λ σ,
  (Return (length (heap σ)), set_heap (heap σ ++ [o]) σ).

Definition not_a_selector : exn :=
  TypeError "Cannot read properties of undefined".

(** [this.classResStr += s] *)
Definition add_classResStr (this : loc) (s : string) : M unit := λ σ,
  match heap σ !! this with
  | Some (SelectorObject m v r) =>
      (Return tt, set_heap (<[this := SelectorObject m v (r +:+ s)]> (heap σ)) σ)
  | _ => (Throw not_a_selector, σ)
  end.

(** [this.combResStr += s] *)
Definition add_combResStr (this : loc) (s : string) : M unit := λ σ,
  match heap σ !! this with
  | Some (CombineObject s1 c s2 r) =>
      (Return tt, set_heap (<[this := CombineObject s1 c s2 (r +:+ s)]> (heap σ)) σ)
  | _ => (Throw not_a_selector, σ)
  end.

(** [cssSelectorBuilder.validArr.push(item)] *)
Definition validArr_push (item : string) : M unit := λ σ,
  (Return tt, set_validArr (validArr σ ++ [item]) σ).

(** [cssSelectorBuilder.validArr.length = 0] *)
Definition validArr_clear : M unit := λ σ, (Return tt, set_validArr [] σ).

Definition get_validArr : M (list string) := λ σ, (Return (validArr σ), σ).

(** [sel.classResStr]: reading a property of [undefined] or [null]
    throws; a property the object does not have reads as [undefined]. *)
Definition get_classResStr (sel : jsval) : M jsval := λ σ,
  match sel with
  | undefined | null => (Throw not_a_selector, σ)
  | jstr _ => (Return undefined, σ)
  | ref l =>
      match heap σ !! l with
      | Some (SelectorObject _ _ r) => (Return (jstr r), σ)
      | _ => (Return undefined, σ)
      end
  end.

(** [sel.combResStr] *)
Definition get_combResStr (sel : jsval) : M jsval := λ σ,
  match sel with
  | undefined | null => (Throw not_a_selector, σ)
  | jstr _ => (Return undefined, σ)
  | ref l =>
      match heap σ !! l with
      | Some (CombineObject _ _ _ r) => (Return (jstr r), σ)
      | _ => (Return undefined, σ)
      end
  end.

(** ** The class returned by [SelectorClassConstructor] *)

Module SelectorClass.

Definition sampleOccur : list string := ["element"; "id"; "pseudoElement"].

Definition sampleOrder : list string :=
  ["element"; "id"; "class"; "attr"; "pseudoClass"; "pseudoElement"].

(** The two exceptions of [validArrCheck]. *)
Definition DuplicateSingleton : exn :=
  Error "Element, id and pseudo-element should not occur more then one time inside the selector".

Definition OutOfOrder : exn :=
  Error "Selector parts should be arranged in the following order: element, id, class, attribute, pseudo-class, pseudo-element".

(** The condition of the [if] in the first loop. *)
Definition occurs_twice (arr : list string) (item : string) : bool :=
  negb (indexOf arr item =? lastIndexOf arr item)%Z.

(** The condition of the [if] in the inner loop of the second. *)
Definition out_of_order (arr : list string) (item sliceEl : string) : bool :=
  negb (indexOf arr sliceEl =? -1)%Z
  && (indexOf arr item >? indexOf arr sliceEl)%Z.

Definition validArrCheck (arr : list string) : completion unit :=
  match
    forEach sampleOccur (λ item _ _,
      if occurs_twice arr item then Throw DuplicateSingleton else Return tt)
  with
  | Throw e => Throw e
  | Return _ =>
      forEach sampleOrder (λ item idx initArr,
        forEach (slice idx initArr) (λ sliceEl _ _,
          if out_of_order arr item sliceEl then Throw OutOfOrder
          else Return tt))
  end.

Definition element (str : string) (this : loc) : M jsval :=
  add_classResStr this str ;;
  validArr_push "element" ;;
  arr ← get_validArr ; lift (validArrCheck arr) ;;
  mret (ref this).

Definition id (str : string) (this : loc) : M jsval :=
  add_classResStr this ("#" +:+ str) ;;
  validArr_push "id" ;;
  arr ← get_validArr ; lift (validArrCheck arr) ;;
  mret (ref this).

Definition class (str : string) (this : loc) : M jsval :=
  add_classResStr this ("." +:+ str) ;;
  validArr_push "class" ;;
  arr ← get_validArr ; lift (validArrCheck arr) ;;
  mret (ref this).

Definition attr (str : string) (this : loc) : M jsval :=
  add_classResStr this ("[" +:+ str +:+ "]") ;;
  validArr_push "attr" ;;
  arr ← get_validArr ; lift (validArrCheck arr) ;;
  mret (ref this).

Definition pseudoClass (str : string) (this : loc) : M jsval :=
  add_classResStr this (":" +:+ str) ;;
  validArr_push "pseudoClass" ;;
  arr ← get_validArr ; lift (validArrCheck arr) ;;
  mret (ref this).

Definition pseudoElement (str : string) (this : loc) : M jsval :=
  add_classResStr this ("::" +:+ str) ;;
  validArr_push "pseudoElement" ;;
  arr ← get_validArr ; lift (validArrCheck arr) ;;
  mret (ref this).

(** [this[m]] *)
Definition invoke (m : method) : string → loc → M jsval :=
  match m with
  | Element => element
  | Id => id
  | Class => class
  | Attr => attr
  | PseudoClass => pseudoClass
  | PseudoElement => pseudoElement
  end.

(** [new (SelectorClassConstructor(method, value))()] *)
Definition new (method : method) (value : string) : M jsval :=
  this ← alloc (SelectorObject method value "") ;
  validArr_clear ;;
  invoke method value this ;;
  mret (ref this).

Definition stringify (this : loc) : M jsval := get_classResStr (ref this).

End SelectorClass.

(** ** The class returned by [CombineClassConstructor] *)

Module CombineClass.

(** The [if]/[else] that [combine] runs for [sel1] and again for [sel2]:
    [classResStr] is appended if it is truthy, else [combResStr],
    whatever that property reads as. *)
Definition add_operand (sel : jsval) (this : loc) : M unit :=
  c ← get_classResStr sel ;
  if truthy c then add_combResStr this (ToString c)
  else (r ← get_combResStr sel ; add_combResStr this (ToString r)).

Definition combine (sel1 : jsval) (comb : string) (sel2 : jsval)
    (this : loc) : M jsval :=
  add_operand sel1 this ;;
  add_combResStr this (" " +:+ comb +:+ " ") ;;
  add_operand sel2 this ;;
  mret (ref this).

(** [new (CombineClassConstructor(selector1, combinator, selector2))()] *)
Definition new (selector1 : jsval) (combinator : string) (selector2 : jsval)
    : M jsval :=
  this ← alloc (CombineObject selector1 combinator selector2 "") ;
  combine selector1 combinator selector2 this ;;
  mret (ref this).

Definition stringify (this : loc) : M jsval := get_combResStr (ref this).

End CombineClass.

(** ** The facade *)

Module cssSelectorBuilder.

Definition element (value : string) : M jsval :=
  SelectorClass.new Element value.

Definition id (value : string) : M jsval :=
  SelectorClass.new Id value.

Definition class (value : string) : M jsval :=
  SelectorClass.new Class value.

Definition attr (value : string) : M jsval :=
  SelectorClass.new Attr value.

Definition pseudoClass (value : string) : M jsval :=
  SelectorClass.new PseudoClass value.

Definition pseudoElement (value : string) : M jsval :=
  SelectorClass.new PseudoElement value.

Definition combine (selector1 : jsval) (combinator : string)
    (selector2 : jsval) : M jsval :=
  CombineClass.new selector1 combinator selector2.

(** [cssSelectorBuilder[m]] *)
Definition invoke (m : method) : string → M jsval :=
  match m with
  | Element => element
  | Id => id
  | Class => class
  | Attr => attr
  | PseudoClass => pseudoClass
  | PseudoElement => pseudoElement
  end.

End cssSelectorBuilder.

(** ** Method calls on values *)

Definition not_a_function : exn := TypeError "is not a function".

(** [sel[m](str)]: only the objects of the selector class have the six
    methods. *)
Definition call_method (sel : jsval) (m : method) (str : string) : M jsval :=
  λ σ,
  match sel with
  | ref this =>
      match heap σ !! this with
      | Some (SelectorObject _ _ _) => SelectorClass.invoke m str this σ
      | _ => (Throw not_a_function, σ)
      end
  | jstr _ => (Throw not_a_function, σ)
  | undefined | null => (Throw not_a_selector, σ)
  end.

(** [sel.stringify()] *)
Definition stringify (sel : jsval) : M jsval := λ σ,
  match sel with
  | ref this =>
      match heap σ !! this with
      | Some (SelectorObject _ _ _) => SelectorClass.stringify this σ
      | Some (CombineObject _ _ _ _) => CombineClass.stringify this σ
      | None => (Throw not_a_function, σ)
      end
  | jstr _ => (Throw not_a_function, σ)
  | undefined | null => (Throw not_a_selector, σ)
  end.

(** ** Callers *)

(** What a caller can do with the builder: call one of the facade's six
    constructors, call one of the six methods on a value it holds, or
    call the facade's [combine]. *)
Inductive call :=
| Build (m : method) (value : string)
| Append (sel : jsval) (m : method) (str : string)
| Combine (selector1 : jsval) (combinator : string) (selector2 : jsval).

Definition exec (c : call) : M jsval :=
  match c with
  | Build m value => cssSelectorBuilder.invoke m value
  | Append sel m str => call_method sel m str
  | Combine selector1 combinator selector2 =>
      cssSelectorBuilder.combine selector1 combinator selector2
  end.

(** A caller that makes the calls one after the other and catches what
    they throw. *)
Fixpoint run (cs : list call) (σ : state) : state :=
  match cs with
  | [] => σ
  | c :: cs' => run cs' (exec c σ).2
  end.

(** The chained expression [sel.m1(v1).m2(v2)...]: an exception ends it. *)
Fixpoint chain_from (sel : jsval) (ps : list (method * string)) : M jsval :=
  match ps with
  | [] => mret sel
  | (m, v) :: ps' => sel' ← call_method sel m v ; chain_from sel' ps'
  end.

(** [cssSelectorBuilder.m0(v0).m1(v1)...] *)
Definition chain (p : method * string) (ps : list (method * string))
    : M jsval :=
  sel ← cssSelectorBuilder.invoke p.1 p.2 ; chain_from sel ps.

(** The state in which the module is loaded. *)
Definition init : state := {| validArr := []; heap := [] |}.

Definition is_selector (σ : state) (l : loc) : bool :=
  match heap σ !! l with
  | Some (SelectorObject _ _ _) => true
  | _ => false
  end.

(** A value is a selector of [σ] when it refers to an object built by the
    facade: an instance of either class. *)
Definition selector_value (σ : state) (v : jsval) : Prop :=
  match v with
  | ref l => is_Some (heap σ !! l)
  | _ => False
  end.

(** ** The vocabulary of the specification *)

(** The rendering table. *)
Definition render (m : method) (v : string) : string :=
  match m with
  | Element => v
  | Id => "#" +:+ v
  | Class => "." +:+ v
  | Attr => "[" +:+ v +:+ "]"
  | PseudoClass => ":" +:+ v
  | PseudoElement => "::" +:+ v
  end.

Definition render_all (ps : list (method * string)) : string :=
  foldr (λ p acc, render p.1 p.2 +:+ acc) "" ps.

(** The precedence: element < id < class < attribute < pseudoClass <
    pseudoElement. *)
Definition rank (m : method) : nat :=
  match m with
  | Element => 0
  | Id => 1
  | Class => 2
  | Attr => 3
  | PseudoClass => 4
  | PseudoElement => 5
  end.

Definition singleton (m : method) : bool :=
  match m with
  | Element | Id | PseudoElement => true
  | _ => false
  end.

Definition repeatable (m : method) : bool := negb (singleton m).

Definition method_eqb (a b : method) : bool := (rank a =? rank b).

Fixpoint occurrences (k : method) (ks : list method) : nat :=
  match ks with
  | [] => 0
  | x :: ks' => (if method_eqb x k then 1 else 0) + occurrences k ks'
  end.

(** Invariant A: each singleton kind at most once. *)
Definition singletons_once (ks : list method) : bool :=
  forallb (λ k, (occurrences k ks <=? 1)) [Element; Id; PseudoElement].

(** Invariant B: the kinds never go down in precedence. *)
Fixpoint non_decreasing (ks : list method) : bool :=
  match ks with
  | a :: (b :: _) as tl => (rank a <=? rank b) && non_decreasing tl
  | _ => true
  end.

Definition valid_sequence (ks : list method) : bool :=
  singletons_once ks && non_decreasing ks.

(** The pieces a caller has appended to the selector at [this], the
    seeding one included, read off the calls it made from state [σ]. *)
Fixpoint pieces (this : loc) (cs : list call) (σ : state)
    : list (method * string) :=
  match cs with
  | [] => []
  | c :: cs' =>
      match c with
      | Build m v => if decide (length (heap σ) = this) then [(m, v)] else []
      | Append (ref l) m v =>
          if decide (l = this) then
            if is_selector σ this then [(m, v)] else []
          else []
      | _ => []
      end ++ pieces this cs' (exec c σ).2
  end.

(** What a call does to its caller: nothing when it returns, the
    exception when it throws. *)
Definition raised {A} (r : completion A * state) : option exn :=
  match r.1 with
  | Return _ => None
  | Throw e => Some e
  end.

(** The string [stringify] returns for [sel] in [σ], if it returns one. *)
Definition serialized (σ : state) (sel : jsval) : option string :=
  match (stringify sel σ).1 with
  | Return (jstr s) => Some s
  | _ => None
  end.

(** The builder-wide kind history: what one call leaves in [validArr],
    and what a sequence of calls does. Every construction starts it
    afresh; an append on any selector extends it; [combine] leaves it. *)
Definition pushes (c : call) (σ : state) (arr : list string) : list string :=
  match c with
  | Build m _ => [name m]
  | Append (ref l) m _ => if is_selector σ l then arr ++ [name m] else arr
  | _ => arr
  end.

Fixpoint shared_history (cs : list call) (σ : state) (arr : list string)
    : list string :=
  match cs with
  | [] => arr
  | c :: cs' => shared_history cs' (exec c σ).2 (pushes c σ arr)
  end.

Definition is_build (c : call) : bool :=
  match c with
  | Build _ _ => true
  | _ => false
  end.

(** The text [combine] appends for an operand, read off the state in
    which [combine] is called. *)
Definition operand_text (σ : state) (sel : jsval) : string :=
  match (get_classResStr sel σ).1 with
  | Return c =>
      if truthy c then ToString c
      else
        match (get_combResStr sel σ).1 with
        | Return r => ToString r
        | Throw _ => ""
        end
  | Throw _ => ""
  end.

(** * Properties *)

(** ** [indexOf] and [lastIndexOf] *)

Section ArrayMethods.
Implicit Types (arr : list string) (item x y : string) (i j : nat).

Lemma indexOf_spec arr x :
  ((x ∉ arr) ∧ indexOf arr x = (-1)%Z) ∨
  (∃ i, indexOf arr x = Z.of_nat i ∧ arr !! i = Some x ∧
        ∀ j, j < i → arr !! j ≠ Some x).
Proof.
  unfold indexOf.
  destruct (list_find (λ z, z = x) arr) as [[i z]|] eqn:Hfind.
  - apply list_find_Some in Hfind as (Hi & -> & Hbefore).
    right. exists i. split_and!; [done..|].
    intros j Hj Hx. by apply (Hbefore j x).
  - left. split; [|done].
    rewrite list_find_None, Forall_forall in Hfind.
    intros Hin. by apply (Hfind x).
Qed.

Lemma lastIndexOf_spec arr x :
  ((x ∉ arr) ∧ lastIndexOf arr x = (-1)%Z) ∨
  (∃ i, lastIndexOf arr x = Z.of_nat i ∧ arr !! i = Some x ∧
        ∀ j, i < j → arr !! j ≠ Some x).
Proof.
  unfold lastIndexOf.
  destruct (list_find (λ z, z = x) (reverse arr)) as [[k z]|] eqn:Hfind.
  - apply list_find_Some in Hfind as (Hk & -> & Hbefore).
    apply reverse_lookup_Some in Hk as [Hk Hlt].
    right. exists (length arr - S k). split_and!; [lia|done|].
    intros j Hj Hx.
    assert (j < length arr) by (by eapply lookup_lt_Some).
    apply (Hbefore (length arr - S j) x); [|lia|done].
    apply reverse_lookup_Some. split; [|lia].
    by replace (length arr - S (length arr - S j)) with j by lia.
  - left. split; [|done].
    rewrite list_find_None, Forall_forall in Hfind.
    intros Hin. apply (Hfind x); [|done]. by apply elem_of_reverse.
Qed.

Lemma indexOf_absent arr x : x ∉ arr → indexOf arr x = (-1)%Z.
Proof.
  intros Hx. destruct (indexOf_spec arr x) as [[_ ?]|(i & _ & Hi & _)]; [done|].
  destruct Hx. by eapply list_elem_of_lookup_2.
Qed.

Lemma indexOf_first arr x i :
  arr !! i = Some x → (∀ j, j < i → arr !! j ≠ Some x) →
  indexOf arr x = Z.of_nat i.
Proof.
  intros Hi Hbefore.
  destruct (indexOf_spec arr x) as [[Hx _]|(k & -> & Hk & Hbeforek)].
  - destruct Hx. by eapply list_elem_of_lookup_2.
  - destruct (Nat.lt_trichotomy i k) as [?|[->|?]]; [|done|].
    + by destruct (Hbeforek i).
    + by destruct (Hbefore k).
Qed.

Lemma lastIndexOf_last arr x i :
  arr !! i = Some x → (∀ j, i < j → arr !! j ≠ Some x) →
  lastIndexOf arr x = Z.of_nat i.
Proof.
  intros Hi Hafter.
  destruct (lastIndexOf_spec arr x) as [[Hx _]|(k & -> & Hk & Hafterk)].
  - destruct Hx. by eapply list_elem_of_lookup_2.
  - destruct (Nat.lt_trichotomy i k) as [?|[->|?]]; [|done|].
    + by destruct (Hafter k).
    + by destruct (Hafterk i).
Qed.

(** Pushing something that is already there moves no first index. *)
Lemma indexOf_push arr x y :
  x ∈ arr → indexOf (arr ++ [x]) y = indexOf arr y.
Proof.
  intros Hx.
  destruct (indexOf_spec arr y) as [[Hy ->]|(i & -> & Hi & Hbefore)].
  - apply indexOf_absent. rewrite elem_of_app, list_elem_of_singleton.
    intros [?| ->]; done.
  - apply indexOf_first.
    + by apply lookup_app_l_Some.
    + intros j Hj. rewrite lookup_app_l; [by apply Hbefore|].
      apply lookup_lt_Some in Hi. lia.
Qed.

Lemma lastIndexOf_push arr x y :
  x ≠ y → lastIndexOf (arr ++ [x]) y = lastIndexOf arr y.
Proof.
  intros Hxy.
  destruct (lastIndexOf_spec arr y) as [[Hy ->]|(i & -> & Hi & Hafter)].
  - destruct (lastIndexOf_spec (arr ++ [x]) y) as [[_ ?]|(k & _ & Hk & _)]; [done|].
    apply list_elem_of_lookup_2 in Hk.
    rewrite elem_of_app, list_elem_of_singleton in Hk. by destruct Hk.
  - apply lastIndexOf_last.
    + by apply lookup_app_l_Some.
    + intros j Hj Hjy. apply lookup_app_Some in Hjy as [Hjy|[_ Hjy]].
      * by apply (Hafter j).
      * apply list_lookup_singleton_Some in Hjy as [_ ?]. done.
Qed.

Lemma lastIndexOf_push_same arr x :
  lastIndexOf (arr ++ [x]) x = Z.of_nat (length arr).
Proof.
  apply lastIndexOf_last.
  - by rewrite list_lookup_middle.
  - intros j Hj Hjx. apply lookup_lt_Some in Hjx.
    rewrite length_app in Hjx. simpl in Hjx. lia.
Qed.

End ArrayMethods.

(** ** [validArrCheck] *)

Section Validator.
Import SelectorClass.
Implicit Types (arr : list string) (item x y : string) (i j : nat).
Implicit Types (k X Y : method) (ks : list method).

Lemma name_inj X Y : name X = name Y → X = Y.
Proof. by destruct X, Y. Qed.

(** The first loop's condition holds exactly when the array has the
    item at two places. *)
Lemma occurs_twice_true arr x :
  occurs_twice arr x = true ↔
  ∃ i j, i ≠ j ∧ arr !! i = Some x ∧ arr !! j = Some x.
Proof.
  unfold occurs_twice. rewrite negb_true_iff, Z.eqb_neq. split.
  - intros Hne.
    destruct (indexOf_spec arr x) as [[Hx Hi]|(i & Hi & Hix & _)];
      destruct (lastIndexOf_spec arr x) as [[Hx' Hj]|(j & Hj & Hjx & _)].
    + congruence.
    + destruct Hx. by eapply list_elem_of_lookup_2.
    + destruct Hx'. by eapply list_elem_of_lookup_2.
    + exists i, j. split_and!; [|done..]. intros ->. congruence.
  - intros (i & j & Hij & Hi & Hj).
    assert (∃ a b, a < b ∧ arr !! a = Some x ∧ arr !! b = Some x)
      as (a & b & Hab & Ha & Hb).
    { destruct (Nat.lt_trichotomy i j) as [?|[?|?]]; [|done|];
        [exists i, j|exists j, i]; done. }
    destruct (indexOf_spec arr x) as [[Hx _]|(f & -> & _ & Hbefore)].
    { destruct Hx. by eapply list_elem_of_lookup_2. }
    destruct (lastIndexOf_spec arr x) as [[Hx _]|(l & -> & _ & Hafter)].
    { destruct Hx. by eapply list_elem_of_lookup_2. }
    intros Heq. apply Nat2Z.inj in Heq as ->.
    destruct (decide (l ≤ a)).
    + by apply (Hafter b); [lia|].
    + by apply (Hbefore a); [lia|].
Qed.

(** The second loop's condition: both items are there and [item]'s
    first place is after [sliceEl]'s first place. *)
Lemma out_of_order_true arr item sliceEl :
  out_of_order arr item sliceEl = true ↔
  ∃ i j, j < i ∧
    indexOf arr item = Z.of_nat i ∧ indexOf arr sliceEl = Z.of_nat j.
Proof.
  unfold out_of_order.
  rewrite andb_true_iff, negb_true_iff, Z.eqb_neq, Z.gtb_gt. split.
  - intros [Hpresent Hgt].
    destruct (indexOf_spec arr sliceEl) as [[_ ?]|(j & Hj & _)]; [done|].
    destruct (indexOf_spec arr item) as [[_ Hi]|(i & Hi & _)]; [lia|].
    exists i, j. split_and!; [lia|done..].
  - intros (i & j & Hij & -> & ->). lia.
Qed.

(** The three outcomes of the validator. *)
Lemma validArrCheck_Return arr :
  (∀ k, singleton k = true → occurs_twice arr (name k) = false) →
  (∀ X Y, rank X ≤ rank Y → out_of_order arr (name X) (name Y) = false) →
  validArrCheck arr = Return tt.
Proof.
  intros Honce Horder.
  cbv [validArrCheck forEach forEach_from sampleOccur sampleOrder slice drop].
  change "element" with (name Element). change "id" with (name Id).
  change "class" with (name Class). change "attr" with (name Attr).
  change "pseudoClass" with (name PseudoClass).
  change "pseudoElement" with (name PseudoElement).
  rewrite !Honce by done. rewrite !Horder by (simpl; lia). done.
Qed.

Lemma validArrCheck_DuplicateSingleton arr k :
  singleton k = true → occurs_twice arr (name k) = true →
  validArrCheck arr = Throw DuplicateSingleton.
Proof.
  intros Hk Htwice.
  cbv [validArrCheck forEach forEach_from sampleOccur sampleOrder slice drop].
  destruct k; try discriminate Hk; simpl in Htwice;
    repeat match goal with
    | |- context [if occurs_twice arr ?a then _ else _] =>
        destruct (occurs_twice arr a) eqn:?; [reflexivity|]
    end; congruence.
Qed.

Lemma validArrCheck_OutOfOrder arr X Y :
  (∀ k, singleton k = true → occurs_twice arr (name k) = false) →
  rank X ≤ rank Y → out_of_order arr (name X) (name Y) = true →
  validArrCheck arr = Throw OutOfOrder.
Proof.
  intros Honce Hrank Hout.
  cbv [validArrCheck forEach forEach_from sampleOccur sampleOrder slice drop].
  pose proof (Honce Element eq_refl) as H1.
  pose proof (Honce Id eq_refl) as H2.
  pose proof (Honce PseudoElement eq_refl) as H3.
  simpl in H1, H2, H3. rewrite H1, H2, H3. clear Honce H1 H2 H3.
  destruct X, Y; simpl in Hrank; try lia; simpl in Hout;
    repeat match goal with
    | |- context [if out_of_order arr ?a ?b then _ else _] =>
        destruct (out_of_order arr a b) eqn:?; [reflexivity|]
    end; congruence.
Qed.

(** The validator has no other outcome. *)
Lemma validArrCheck_cases arr :
  validArrCheck arr = Return tt ∨
  validArrCheck arr = Throw DuplicateSingleton ∨
  validArrCheck arr = Throw OutOfOrder.
Proof.
  cbv [validArrCheck forEach forEach_from sampleOccur sampleOrder slice drop].
  repeat match goal with
  | |- context [if occurs_twice arr ?a then _ else _] =>
      destruct (occurs_twice arr a); [by auto|]
  end.
  repeat match goal with
  | |- context [if out_of_order arr ?a ?b then _ else _] =>
      destruct (out_of_order arr a b); [by auto|]
  end.
  by left.
Qed.

(** It returns only when no singleton is there twice. *)
Lemma validArrCheck_Return_once arr k :
  validArrCheck arr = Return tt → singleton k = true →
  occurs_twice arr (name k) = false.
Proof.
  intros Hret Hk. destruct (occurs_twice arr (name k)) eqn:Htwice; [|done].
  rewrite (validArrCheck_DuplicateSingleton arr k) in Hret; done.
Qed.

(** Pushing a repeatable name a second time changes nothing for the
    validator. *)
Lemma validArrCheck_push_again arr k :
  repeatable k = true → name k ∈ arr →
  validArrCheck (arr ++ [name k]) = validArrCheck arr.
Proof.
  intros Hk Hin.
  cbv [validArrCheck forEach forEach_from sampleOccur sampleOrder slice drop
       occurs_twice out_of_order].
  rewrite !indexOf_push by done.
  rewrite !lastIndexOf_push by (by destruct k).
  done.
Qed.

End Validator.

(** ** Kind sequences that respect the two invariants *)

Section Sequences.
Import SelectorClass.
Implicit Types (arr : list string) (i j : nat).
Implicit Types (k X Y : method) (ks : list method).

Lemma rank_inj X Y : rank X = rank Y → X = Y.
Proof. by destruct X, Y. Qed.

Lemma method_eqb_eq X Y : method_eqb X Y = true ↔ X = Y.
Proof.
  unfold method_eqb. rewrite Nat.eqb_eq. split; [apply rank_inj|by intros ->].
Qed.

Lemma method_eqb_refl X : method_eqb X X = true.
Proof. by apply method_eqb_eq. Qed.

Lemma occurrences_lookup ks k i :
  ks !! i = Some k → 1 ≤ occurrences k ks.
Proof.
  revert i. induction ks as [|x ks IH]; intros [|i] Hi; simplify_eq/=.
  - rewrite method_eqb_refl. lia.
  - specialize (IH _ Hi). lia.
Qed.

Lemma occurrences_two ks k i j :
  i ≠ j → ks !! i = Some k → ks !! j = Some k → 2 ≤ occurrences k ks.
Proof.
  revert i j. induction ks as [|x ks IH]; intros [|i] [|j] Hij Hi Hj;
    simplify_eq/=.
  - rewrite method_eqb_refl. apply occurrences_lookup in Hj. lia.
  - rewrite method_eqb_refl. apply occurrences_lookup in Hi. lia.
  - assert (i ≠ j) as Hij' by congruence.
    specialize (IH _ _ Hij' Hi Hj). lia.
Qed.

Lemma occurrences_app k ks ks' :
  occurrences k (ks ++ ks') = occurrences k ks + occurrences k ks'.
Proof. induction ks as [|x ks IH]; simpl; [done|]. rewrite IH. lia. Qed.

Lemma non_decreasing_cons a ks :
  non_decreasing (a :: ks) = true →
  non_decreasing ks = true ∧ ∀ i b, ks !! i = Some b → rank a ≤ rank b.
Proof.
  revert a. induction ks as [|c ks IH]; intros a Hnd.
  - split; [done|]. by intros i b.
  - simpl in Hnd. apply andb_true_iff in Hnd as [Hac Hnd].
    apply Nat.leb_le in Hac. split; [done|].
    intros [|i] b Hi; simplify_eq/=; [done|].
    destruct (IH _ Hnd) as [_ Hall]. specialize (Hall _ _ Hi). lia.
Qed.

Lemma non_decreasing_lookup ks i j a b :
  non_decreasing ks = true → i < j →
  ks !! i = Some a → ks !! j = Some b → rank a ≤ rank b.
Proof.
  revert i j. induction ks as [|c ks IH]; intros i j Hnd Hij Hi Hj; [done|].
  apply non_decreasing_cons in Hnd as [Hnd Hall].
  destruct i as [|i], j as [|j]; simplify_eq/=; try lia.
  - by eapply Hall.
  - eapply (IH i j); [done|lia|done..].
Qed.

Lemma non_decreasing_app_l ks ks' :
  non_decreasing (ks ++ ks') = true → non_decreasing ks = true.
Proof.
  induction ks as [|a [|b ks] IH]; [done..|].
  simpl. rewrite !andb_true_iff. intros [? ?]. split; [done|]. by apply IH.
Qed.

Lemma valid_sequence_app_l ks ks' :
  valid_sequence (ks ++ ks') = true → valid_sequence ks = true.
Proof.
  unfold valid_sequence, singletons_once. simpl.
  rewrite !andb_true_iff, !Nat.leb_le, !occurrences_app.
  intros [(? & ? & ? & _) Hnd]. apply non_decreasing_app_l in Hnd.
  split_and!; (done || lia).
Qed.

Lemma valid_sequence_once ks k :
  valid_sequence ks = true → singleton k = true → occurrences k ks ≤ 1.
Proof.
  unfold valid_sequence, singletons_once. simpl.
  rewrite !andb_true_iff, !Nat.leb_le.
  intros [(? & ? & ? & _) _] Hk. by destruct k.
Qed.

Lemma lookup_names ks i k :
  (name <$> ks) !! i = Some (name k) → ks !! i = Some k.
Proof.
  rewrite list_lookup_fmap. destruct (ks !! i) as [k'|]; [|done].
  simpl. intros [= Heq]. by apply name_inj in Heq as ->.
Qed.

Lemma indexOf_lookup arr x i :
  indexOf arr x = Z.of_nat i → arr !! i = Some x.
Proof.
  destruct (indexOf_spec arr x) as [[_ ->]|(i' & -> & Hi & _)]; [lia|].
  by intros ->%Nat2Z.inj.
Qed.

(** A sequence that respects both invariants passes the validator. *)
Lemma valid_sequence_check ks :
  valid_sequence ks = true → validArrCheck (name <$> ks) = Return tt.
Proof.
  intros Hvalid. apply validArrCheck_Return.
  - intros k Hk.
    destruct (occurs_twice (name <$> ks) (name k)) eqn:Htwice; [|done].
    apply occurs_twice_true in Htwice as (i & j & Hij & Hi & Hj).
    apply lookup_names in Hi, Hj.
    pose proof (occurrences_two _ _ _ _ Hij Hi Hj).
    pose proof (valid_sequence_once _ _ Hvalid Hk). lia.
  - intros X Y Hrank.
    destruct (out_of_order (name <$> ks) (name X) (name Y)) eqn:Hout; [|done].
    apply out_of_order_true in Hout as (i & j & Hij & Hi & Hj).
    pose proof (indexOf_lookup _ _ _ Hi) as HX.
    pose proof (indexOf_lookup _ _ _ Hj) as HY.
    apply lookup_names in HX, HY.
    unfold valid_sequence in Hvalid. apply andb_true_iff in Hvalid as [_ Hnd].
    pose proof (non_decreasing_lookup _ _ _ _ _ Hnd Hij HY HX) as Hle.
    assert (X = Y) as -> by (apply rank_inj; lia).
    rewrite Hi in Hj. lia.
Qed.

End Sequences.

(** ** The six methods and the constructor *)

Section Methods.
Import SelectorClass.
Implicit Types (σ : state) (this l : loc) (m k : method) (str v r : string).

(** Every one of the six methods writes [classResStr] and [validArr]
    first and validates afterwards. *)
Lemma invoke_eq m str this σ m0 v0 r :
  heap σ !! this = Some (SelectorObject m0 v0 r) →
  invoke m str this σ =
    (match validArrCheck (validArr σ ++ [name m]) with
     | Return _ => Return (ref this)
     | Throw e => Throw e
     end,
     {| validArr := validArr σ ++ [name m];
        heap := <[this := SelectorObject m0 v0 (r +:+ render m str)]> (heap σ) |}).
Proof.
  intros Hthis.
  destruct m;
    cbv [invoke element id class attr pseudoClass pseudoElement
         mbind M_bind mret M_ret add_classResStr validArr_push
         get_validArr lift set_heap set_validArr validArr heap render name];
    fold (heap σ); fold (validArr σ); rewrite Hthis;
    by destruct (validArrCheck _).
Qed.

Lemma call_method_eq m str this σ m0 v0 r :
  heap σ !! this = Some (SelectorObject m0 v0 r) →
  call_method (ref this) m str σ = invoke m str this σ.
Proof. intros Hthis. unfold call_method. by rewrite Hthis. Qed.

Lemma validArrCheck_one m : validArrCheck [name m] = Return tt.
Proof. by destruct m. Qed.

(** The constructor empties the shared array before the seeding call,
    which therefore always passes. *)
Lemma new_eq m v σ :
  SelectorClass.new m v σ =
    (Return (ref (length (heap σ))),
     {| validArr := [name m];
        heap := heap σ ++ [SelectorObject m v (render m v)] |}).
Proof.
  unfold SelectorClass.new.
  cbv [mbind M_bind mret M_ret alloc validArr_clear set_heap set_validArr].
  simpl validArr. simpl heap.
  rewrite (invoke_eq m v _ _ m v "") by (simpl; apply list_lookup_middle; done).
  simpl validArr. simpl heap.
  rewrite app_nil_l, validArrCheck_one.
  rewrite insert_app_r_alt, Nat.sub_diag by done.
  done.
Qed.

Lemma builder_invoke_eq m v : cssSelectorBuilder.invoke m v = SelectorClass.new m v.
Proof. by destruct m. Qed.

Lemma append_assoc (a b c : string) : (a +:+ b) +:+ c = a +:+ (b +:+ c).
Proof.
  induction a as [|x a IH]; [done|].
  change (String x ((a +:+ b) +:+ c) = String x (a +:+ b +:+ c)).
  by rewrite IH.
Qed.

Lemma append_empty_r (a : string) : a +:+ "" = a.
Proof.
  induction a as [|x a IH]; [done|].
  change (String x (a +:+ "") = String x a). by rewrite IH.
Qed.

End Methods.

(** ** Chained calls *)

Section Chains.
Implicit Types (σ : state) (this l : loc) (m k : method) (str v r : string).
Implicit Types (ps : list (method * string)) (ks : list method).

Lemma serialized_selector σ this m v r :
  heap σ !! this = Some (SelectorObject m v r) →
  serialized σ (ref this) = Some r.
Proof.
  intros Hthis.
  unfold serialized, stringify, SelectorClass.stringify, get_classResStr.
  by rewrite Hthis.
Qed.

Lemma serialized_combine σ this s1 c s2 r :
  heap σ !! this = Some (CombineObject s1 c s2 r) →
  serialized σ (ref this) = Some r.
Proof.
  intros Hthis.
  unfold serialized, stringify, CombineClass.stringify, get_combResStr.
  by rewrite Hthis.
Qed.

Lemma is_selector_true σ this :
  is_selector σ this = true ↔ ∃ m v r, heap σ !! this = Some (SelectorObject m v r).
Proof.
  unfold is_selector. split.
  - destruct (heap σ !! this) as [[m v r|]|]; [eauto|done..].
  - by intros (m & v & r & ->).
Qed.

(** A chain of appends whose kinds keep the history valid runs to its
    end; the selector has then gained every rendered piece, in order. *)
Lemma chain_from_valid ps : ∀ ks σ this m0 v0 r,
  heap σ !! this = Some (SelectorObject m0 v0 r) →
  validArr σ = name <$> ks →
  valid_sequence (ks ++ ps.*1) = true →
  chain_from (ref this) ps σ =
    (Return (ref this),
     {| validArr := name <$> (ks ++ ps.*1);
        heap := <[this := SelectorObject m0 v0 (r +:+ render_all ps)]> (heap σ) |}).
Proof.
  induction ps as [|[m v] ps IH]; intros ks σ this m0 v0 r Hthis Harr Hvalid.
  - simpl. unfold mret, M_ret. f_equal. destruct σ as [arr h]. simpl in *.
    rewrite app_nil_r, append_empty_r, list_insert_id by done. by subst.
  - simpl in Hvalid. rewrite cons_middle, app_assoc in Hvalid.
    cbn [chain_from]. unfold mbind, M_bind.
    rewrite (call_method_eq _ _ _ _ _ _ _ Hthis), (invoke_eq _ _ _ _ _ _ _ Hthis).
    rewrite Harr.
    replace ((name <$> ks) ++ [name m]) with (name <$> (ks ++ [m]))
      by (by rewrite fmap_app).
    rewrite (valid_sequence_check (ks ++ [m]))
      by (by eapply valid_sequence_app_l).
    erewrite (IH (ks ++ [m])); [| |done|done].
    + simpl. rewrite list_insert_insert_eq, append_assoc, <-app_assoc. done.
    + simpl. apply list_lookup_insert_eq. by eapply lookup_lt_Some.
Qed.

Lemma chain_valid p ps σ :
  valid_sequence ((p :: ps).*1) = true →
  chain p ps σ =
    (Return (ref (length (heap σ))),
     {| validArr := name <$> (p :: ps).*1;
        heap := heap σ ++ [SelectorObject p.1 p.2 (render_all (p :: ps))] |}).
Proof.
  intros Hvalid. destruct p as [m v]. unfold chain, mbind, M_bind.
  rewrite builder_invoke_eq, new_eq. simpl fst. simpl snd.
  rewrite (chain_from_valid ps [m] _ _ m v (render m v)).
  - simpl. by rewrite insert_app_r_alt, Nat.sub_diag.
  - simpl. by apply list_lookup_middle.
  - done.
  - done.
Qed.

Lemma fst_constant_pairs k (vs : list string) :
  ((λ x, (k, x)) <$> vs).*1 = replicate (length vs) k.
Proof. induction vs as [|x vs IH]; csimpl; [done|]. by rewrite IH. Qed.

Lemma occurrences_replicate k k' n :
  k ≠ k' → occurrences k' (replicate n k) = 0.
Proof.
  intros Hne. induction n as [|n IH]; simpl; [done|].
  destruct (method_eqb k k') eqn:Heq; [|done].
  by apply method_eqb_eq in Heq.
Qed.

Lemma non_decreasing_replicate k n : non_decreasing (replicate n k) = true.
Proof.
  induction n as [|[|n] IH]; [done..|].
  change (((rank k <=? rank k) && non_decreasing (replicate (S n) k)) = true).
  rewrite IH, andb_true_r. by apply Nat.leb_le.
Qed.

Lemma valid_sequence_replicate k n :
  repeatable k = true → valid_sequence (replicate n k) = true.
Proof.
  intros Hk. unfold valid_sequence, singletons_once. simpl.
  rewrite non_decreasing_replicate, !occurrences_replicate;
    [done|by destruct k..].
Qed.

End Chains.

(** ** [combine] *)

Section Combinators.
Implicit Types (σ : state) (this l : loc) (sel : jsval).
Implicit Types (c comb r txt : string) (h : list object) (a : list string).

(** While the constructor runs, the node is the last object of the
    heap, and [combResStr += s] rewrites that last object. *)
Lemma add_combResStr_last a h s1 c s2 r txt :
  add_combResStr (length h) txt
    {| validArr := a; heap := h ++ [CombineObject s1 c s2 r] |} =
  (Return tt,
   {| validArr := a; heap := h ++ [CombineObject s1 c s2 (r +:+ txt)] |}).
Proof.
  unfold add_combResStr, set_heap. simpl.
  rewrite list_lookup_middle by done.
  by rewrite insert_app_r_alt, Nat.sub_diag.
Qed.

Lemma selector_value_lookup σ sel :
  selector_value σ sel → ∃ l o, sel = ref l ∧ heap σ !! l = Some o.
Proof. destruct sel as [| | |l]; try done. intros [o Ho]. eauto. Qed.

(** For an operand that is a selector, [add_operand] never throws. *)
Lemma add_operand_selector sel a h s1 c s2 r :
  selector_value {| validArr := a; heap := h |} sel →
  CombineClass.add_operand sel (length h)
    {| validArr := a; heap := h ++ [CombineObject s1 c s2 r] |} =
  (Return tt,
   {| validArr := a;
      heap := h ++ [CombineObject s1 c s2
                      (r +:+ operand_text {| validArr := a; heap := h |} sel)] |}).
Proof.
  intros (l & o & -> & Hl)%selector_value_lookup. simpl in Hl.
  unfold CombineClass.add_operand, operand_text, mbind, M_bind,
    get_classResStr, get_combResStr.
  simpl heap. rewrite (lookup_app_l_Some _ _ _ _ Hl), Hl.
  destruct o as [m v cr|t1 t2 t3 cr]; simpl.
  - destruct (String.eqb cr ""); simpl;
      rewrite ?(lookup_app_l_Some _ _ _ _ Hl); apply add_combResStr_last.
  - rewrite (lookup_app_l_Some _ _ _ _ Hl). apply add_combResStr_last.
Qed.

(** For any operand at all, it leaves everything but the node's own
    string as it was. *)
Lemma add_operand_last sel a h s1 c s2 r :
  ∃ r', (CombineClass.add_operand sel (length h)
           {| validArr := a; heap := h ++ [CombineObject s1 c s2 r] |}).2 =
        {| validArr := a; heap := h ++ [CombineObject s1 c s2 r'] |}.
Proof.
  unfold CombineClass.add_operand, mbind, M_bind.
  destruct sel as [| | t|l]; simpl; try (by eexists).
  - rewrite add_combResStr_last. by eexists.
  - destruct (_ !! l) as [[m v cr|t1 t2 t3 cr]|]; simpl.
    + destruct (String.eqb cr ""); simpl.
      * destruct (_ !! l) as [[]|]; rewrite add_combResStr_last; by eexists.
      * rewrite add_combResStr_last. by eexists.
    + destruct (_ !! l) as [[]|]; rewrite add_combResStr_last; by eexists.
    + destruct (_ !! l) as [[]|]; rewrite add_combResStr_last; by eexists.
Qed.

(** What [combine] builds from two selectors. *)
Lemma combine_eq s1 comb s2 σ :
  selector_value σ s1 → selector_value σ s2 →
  cssSelectorBuilder.combine s1 comb s2 σ =
    (Return (ref (length (heap σ))),
     {| validArr := validArr σ;
        heap := heap σ ++
          [CombineObject s1 comb s2
             (operand_text σ s1 +:+ " " +:+ comb +:+ " " +:+ operand_text σ s2)] |}).
Proof.
  destruct σ as [a h]. intros Hs1 Hs2.
  unfold cssSelectorBuilder.combine, CombineClass.new, CombineClass.combine,
    mbind, M_bind, mret, M_ret, alloc, set_heap.
  simpl validArr. simpl heap.
  rewrite add_operand_selector by done.
  rewrite add_combResStr_last.
  rewrite add_operand_selector by done.
  do 3 f_equal. by rewrite !append_assoc.
Qed.

(** Whatever its operands are, [combine] allocates one node and touches
    nothing else; it does not look at [validArr]. *)
Lemma combine_state s1 comb s2 σ :
  ∃ r, (cssSelectorBuilder.combine s1 comb s2 σ).2 =
       {| validArr := validArr σ;
          heap := heap σ ++ [CombineObject s1 comb s2 r] |}.
Proof.
  destruct σ as [a h].
  unfold cssSelectorBuilder.combine, CombineClass.new, CombineClass.combine,
    mbind, M_bind, mret, M_ret, alloc, set_heap.
  simpl validArr. simpl heap.
  destruct (add_operand_last s1 a h s1 comb s2 "") as [r1 Hr1].
  destruct (CombineClass.add_operand s1 _ _) as [[[]|e] τ1];
    simpl in Hr1; subst τ1; [|by eexists].
  rewrite add_combResStr_last.
  destruct (add_operand_last s2 a h s1 comb s2 (r1 +:+ " " +:+ comb +:+ " "))
    as [r2 Hr2].
  destruct (CombineClass.add_operand s2 _ _) as [[[]|e] τ2];
    simpl in Hr2; subst τ2; by eexists.
Qed.

End Combinators.

(** ** What one call does to the state *)

Section Calls.
Implicit Types (σ : state) (this l : loc) (m k : method) (c : call).
Implicit Types (cs : list call).

(** The state after a call, call by call. *)
Lemma exec_state c σ :
  match c with
  | Build m v =>
      (exec c σ).2 =
        {| validArr := [name m];
           heap := heap σ ++ [SelectorObject m v (render m v)] |}
  | Append (ref this) m str =>
      match heap σ !! this with
      | Some (SelectorObject m0 v0 r) =>
          (exec c σ).2 =
            {| validArr := validArr σ ++ [name m];
               heap := <[this := SelectorObject m0 v0 (r +:+ render m str)]> (heap σ) |}
      | _ => (exec c σ).2 = σ
      end
  | Append _ _ _ => (exec c σ).2 = σ
  | Combine s1 comb s2 =>
      ∃ r, (exec c σ).2 =
        {| validArr := validArr σ;
           heap := heap σ ++ [CombineObject s1 comb s2 r] |}
  end.
Proof.
  destruct c as [m v|sel m str|s1 comb s2]; simpl.
  - by rewrite builder_invoke_eq, new_eq.
  - destruct sel as [| | |this]; try done.
    destruct (heap σ !! this) as [[m0 v0 r|]|] eqn:Hthis.
    + by rewrite (call_method_eq _ _ _ _ _ _ _ Hthis),
        (invoke_eq _ _ _ _ _ _ _ Hthis).
    + unfold call_method. by rewrite Hthis.
    + unfold call_method. by rewrite Hthis.
  - apply combine_state.
Qed.

Lemma exec_validArr c σ :
  validArr (exec c σ).2 = pushes c σ (validArr σ).
Proof.
  pose proof (exec_state c σ) as Hc.
  destruct c as [m v|sel m str|s1 comb s2]; simpl pushes.
  - by rewrite Hc.
  - destruct sel as [| | |this]; try (by rewrite Hc).
    unfold is_selector.
    destruct (heap σ !! this) as [[m0 v0 r|]|]; by rewrite Hc.
  - destruct Hc as [r ->]. done.
Qed.

Lemma run_validArr cs : ∀ σ,
  validArr (run cs σ) = shared_history cs σ (validArr σ).
Proof.
  induction cs as [|c cs IH]; intros σ; simpl; [done|].
  by rewrite IH, exec_validArr.
Qed.

(** No call changes an object's class, and no call changes anything
    in a combinator node that is already there. *)
Lemma exec_combine_node c σ l s1 comb s2 r :
  heap σ !! l = Some (CombineObject s1 comb s2 r) →
  heap (exec c σ).2 !! l = Some (CombineObject s1 comb s2 r).
Proof.
  intros Hl. pose proof (exec_state c σ) as Hc.
  destruct c as [m v|sel m str|t1 tc t2].
  - rewrite Hc. by apply lookup_app_l_Some.
  - destruct sel as [| | |this]; try (by rewrite Hc).
    destruct (heap σ !! this) as [[m0 v0 r0|]|] eqn:Hthis;
      try (by rewrite Hc).
    rewrite Hc. simpl. rewrite list_lookup_insert_ne; [done|].
    intros ->. congruence.
  - destruct Hc as [r' ->]. by apply lookup_app_l_Some.
Qed.

Lemma exec_is_selector c σ l :
  is_selector σ l = true → is_selector (exec c σ).2 l = true.
Proof.
  rewrite !is_selector_true. intros (m1 & v1 & r1 & Hl).
  pose proof (exec_state c σ) as Hc.
  destruct c as [m v|sel m str|t1 tc t2].
  - rewrite Hc. exists m1, v1, r1. by apply lookup_app_l_Some.
  - destruct sel as [| | |this]; try (rewrite Hc; by eauto).
    destruct (heap σ !! this) as [[m0 v0 r0|]|] eqn:Hthis;
      try (rewrite Hc; by eauto).
    rewrite Hc. simpl. destruct (decide (this = l)) as [->|Hne].
    + rewrite list_lookup_insert_eq by (by eapply lookup_lt_Some). eauto.
    + rewrite list_lookup_insert_ne by done. eauto.
  - destruct Hc as [r' ->]. exists m1, v1, r1. by apply lookup_app_l_Some.
Qed.

Lemma run_combine_node cs : ∀ σ l s1 comb s2 r,
  heap σ !! l = Some (CombineObject s1 comb s2 r) →
  heap (run cs σ) !! l = Some (CombineObject s1 comb s2 r).
Proof.
  induction cs as [|c cs IH]; intros σ l s1 comb s2 r Hl; simpl; [done|].
  by apply IH, exec_combine_node.
Qed.

(** What an append on a selector raises is decided by the validator
    alone, on the shared array with the new name pushed. *)
Lemma raised_append σ this m str :
  is_selector σ this = true →
  raised (call_method (ref this) m str σ) =
    match SelectorClass.validArrCheck (validArr σ ++ [name m]) with
    | Return _ => None
    | Throw e => Some e
    end.
Proof.
  intros (m0 & v0 & r & Hthis)%is_selector_true.
  rewrite (call_method_eq _ _ _ _ _ _ _ Hthis), (invoke_eq _ _ _ _ _ _ _ Hthis).
  unfold raised. simpl. by destruct (SelectorClass.validArrCheck _).
Qed.


End Calls.

(** ** Serialization of operands *)

Section Operands.
Implicit Types (σ : state) (l : loc) (sel : jsval) (t comb : string).

Lemma serialized_selector_value σ sel t :
  serialized σ sel = Some t → selector_value σ sel.
Proof.
  unfold serialized, stringify. destruct sel as [| | |l]; try done.
  simpl. by destruct (heap σ !! l).
Qed.

(** [combine] reads a combinator node's string as it is, and a
    fragment's string as it is unless it is empty. *)
Lemma operand_text_serialized σ sel t :
  serialized σ sel = Some t → t ≠ "" → operand_text σ sel = t.
Proof.
  unfold serialized, stringify, operand_text.
  destruct sel as [| | |l]; try done.
  unfold SelectorClass.stringify, CombineClass.stringify,
    get_classResStr, get_combResStr.
  destruct (heap σ !! l) as [[m v r|s1 c s2 r]|]; simpl; try done.
  - intros [= ->] Hne. destruct (String.eqb_spec t ""); done.
  - by intros [= ->] _.
Qed.

Lemma operand_text_empty_fragment σ l :
  is_selector σ l = true → serialized σ (ref l) = Some "" →
  operand_text σ (ref l) = "undefined".
Proof.
  intros (m & v & r & Hl)%is_selector_true.
  rewrite (serialized_selector _ _ _ _ _ Hl). intros [= ->].
  unfold operand_text, get_classResStr, get_combResStr. by rewrite Hl.
Qed.

Lemma combine_serialized s1 comb s2 σ :
  selector_value σ s1 → selector_value σ s2 →
  ∃ n σ', cssSelectorBuilder.combine s1 comb s2 σ = (Return n, σ') ∧
    ∀ cs, serialized (run cs σ') n =
      Some (operand_text σ s1 +:+ " " +:+ comb +:+ " " +:+ operand_text σ s2).
Proof.
  intros Hs1 Hs2. eexists _, _. split; [by apply combine_eq|].
  intros cs. eapply serialized_combine, run_combine_node.
  simpl. by apply list_lookup_middle.
Qed.

End Operands.

(** * The claims of the specification *)

(** ** Rejected appends *)

(** C1, as stated, fails. [element('a').element('b')] throws, and the
    selector that serialized to [a] before the call serializes to [ab]
    after it; the shared kind history has gained the second [element]. *)
Lemma rejected_append_changes_selector :
  raised (call_method (ref 0) Element "b" (run [Build Element "a"] init))
    = Some SelectorClass.DuplicateSingleton ∧
  serialized (run [Build Element "a"] init) (ref 0) = Some "a" ∧
  serialized (call_method (ref 0) Element "b" (run [Build Element "a"] init)).2
    (ref 0) = Some "ab" ∧
  validArr (run [Build Element "a"] init) = ["element"] ∧
  validArr (call_method (ref 0) Element "b" (run [Build Element "a"] init)).2
    = ["element"; "element"].
Proof. by vm_compute. Qed.

(** C1 (amended): for every fragment selector and every append call that
    raises, the selector's serialized string after the failed call is its
    string before the call followed by the rendered piece of that call,
    and the kind history is the one before the call followed by the
    call's kind: the append is written before it is validated and is not
    taken back. *)
Theorem rejected_append_is_committed σ this m str e s :
  is_selector σ this = true →
  serialized σ (ref this) = Some s →
  raised (call_method (ref this) m str σ) = Some e →
  serialized (call_method (ref this) m str σ).2 (ref this)
    = Some (s +:+ render m str) ∧
  validArr (call_method (ref this) m str σ).2 = validArr σ ++ [name m].
Proof.
  intros (m0 & v0 & r & Hthis)%is_selector_true Hs _.
  rewrite (serialized_selector _ _ _ _ _ Hthis) in Hs. injection Hs as ->.
  rewrite (call_method_eq _ _ _ _ _ _ _ Hthis), (invoke_eq _ _ _ _ _ _ _ Hthis).
  simpl. split; [|done].
  eapply serialized_selector. simpl.
  apply list_lookup_insert_eq. by eapply lookup_lt_Some.
Qed.

Lemma rejected_append_is_committed_witness :
  serialized
    (call_method (ref 0) PseudoElement "x"
       (run [Build PseudoElement "after"] init)).2 (ref 0)
    = Some ("::after" +:+ render PseudoElement "x") ∧
  validArr
    (call_method (ref 0) PseudoElement "x"
       (run [Build PseudoElement "after"] init)).2
    = validArr (run [Build PseudoElement "after"] init) ++ [name PseudoElement].
Proof.
  apply (rejected_append_is_committed
           (run [Build PseudoElement "after"] init) 0 PseudoElement "x"
           SelectorClass.DuplicateSingleton "::after");
    reflexivity.
Defined.

(** ** One validation array for all selectors *)

(** C2, as stated, fails. After [a = id('a')] the call [a.id('x')] throws;
    after [a = id('a'); b = element('b')] the same call on [a] returns,
    although in both runs [a] has been given the same pieces. *)
Lemma other_selector_changes_outcome :
  pieces 0 [Build Id "a"] init = [(Id, "a")] ∧
  pieces 0 [Build Id "a"; Build Element "b"] init = [(Id, "a")] ∧
  raised (call_method (ref 0) Id "x" (run [Build Id "a"] init))
    = Some SelectorClass.DuplicateSingleton ∧
  raised (call_method (ref 0) Id "x" (run [Build Id "a"; Build Element "b"] init))
    = None.
Proof. by vm_compute. Qed.

(** C2 (amended): the outcome of an append call on a fragment selector
    (accepted or raising, and which cause) depends only on the kind
    appended and on the builder-wide kind history: the kinds appended to
    any fragment selector since the most recent construction of a
    fragment selector. Two runs that leave the same builder-wide history
    give the same outcome, whatever the selectors and payloads are. *)
Theorem append_outcome_decided_by_shared_history
    cs1 cs2 σ1 σ2 this1 this2 m str1 str2 :
  is_selector (run cs1 σ1) this1 = true →
  is_selector (run cs2 σ2) this2 = true →
  shared_history cs1 σ1 (validArr σ1) = shared_history cs2 σ2 (validArr σ2) →
  raised (call_method (ref this1) m str1 (run cs1 σ1))
    = raised (call_method (ref this2) m str2 (run cs2 σ2)).
Proof.
  intros Hsel1 Hsel2 Hsame.
  rewrite !raised_append, !run_validArr by done. by rewrite Hsame.
Qed.

Lemma append_outcome_decided_by_shared_history_witness :
  raised (call_method (ref 0) Id "x"
            (run [Build Id "a"; Build Element "b"] init))
    = raised (call_method (ref 1) Id "y"
                (run [Build Class "c"; Build Element "d"] init)).
Proof.
  apply (append_outcome_decided_by_shared_history
           [Build Id "a"; Build Element "b"]
           [Build Class "c"; Build Element "d"] init init 0 1 Id "x" "y");
    reflexivity.
Defined.

(** ** The order check *)

(** C3: the code departs from the claim at
    [class('a').attr('b').class('c')]. After the third call the kind
    sequence is [class, attr, class]: [class] has lower precedence than
    [attr], and its last occurrence (index 2) is after the first
    occurrence of [attr] (index 1), so the claim has the third call
    raise OutOfOrder. The order loop compares first occurrence with
    first occurrence (0 and 1), the call returns, and the selector
    serializes to [.a[b].c]. *)
Theorem class_attr_class_is_accepted :
  validArr (run [Build Class "a"; Append (ref 0) Attr "b"] init)
    ++ [name Class] = ["class"; "attr"; "class"] ∧
  rank Class < rank Attr ∧
  lastIndexOf ["class"; "attr"; "class"] (name Class) = 2%Z ∧
  indexOf ["class"; "attr"; "class"] (name Attr) = 1%Z ∧
  indexOf ["class"; "attr"; "class"] (name Class) = 0%Z ∧
  SelectorClass.validArrCheck ["class"; "attr"; "class"] = Return tt ∧
  raised (call_method (ref 0) Class "c"
            (run [Build Class "a"; Append (ref 0) Attr "b"] init)) = None ∧
  raised (chain (Class, "a") [(Attr, "b"); (Class, "c")] init) = None ∧
  serialized (chain (Class, "a") [(Attr, "b"); (Class, "c")] init).2 (ref 0)
    = Some ".a[b].c".
Proof. vm_compute. split_and!; (done || lia). Qed.

(** ** Serialization of a combination *)

(** What [combine] does for operands whose strings are not empty: the two
    strings with the token between them, one space on each side. *)
Lemma combine_serialized_nonempty σ s1 comb s2 t1 t2 :
  serialized σ s1 = Some t1 → t1 ≠ "" →
  serialized σ s2 = Some t2 → t2 ≠ "" →
  ∃ n σ', cssSelectorBuilder.combine s1 comb s2 σ = (Return n, σ') ∧
    serialized σ' n = Some (t1 +:+ " " +:+ comb +:+ " " +:+ t2).
Proof.
  intros Ht1 Hne1 Ht2 Hne2.
  destruct (combine_serialized s1 comb s2 σ) as (n & σ' & Heq & Hser);
    [by eapply serialized_selector_value..|].
  exists n, σ'. split; [done|].
  rewrite <-(operand_text_serialized _ _ _ Ht1 Hne1).
  rewrite <-(operand_text_serialized _ _ _ Ht2 Hne2).
  apply (Hser []).
Qed.

(** C4: the code departs from the claim at
    [combine(element(''), '+', element('a'))]. The operands serialize to
    the empty string and to [a], so the claim gives [ + a]; the node
    serializes to [undefined + a]. *)
Theorem combine_of_empty_fragment :
  serialized (run [Build Element ""; Build Element "a"] init) (ref 0) = Some "" ∧
  serialized (run [Build Element ""; Build Element "a"] init) (ref 1) = Some "a" ∧
  (cssSelectorBuilder.combine (ref 0) "+" (ref 1)
     (run [Build Element ""; Build Element "a"] init)).1 = Return (ref 2) ∧
  serialized
    (cssSelectorBuilder.combine (ref 0) "+" (ref 1)
       (run [Build Element ""; Build Element "a"] init)).2 (ref 2)
    = Some "undefined + a" ∧
  "undefined + a" ≠ "" +:+ " " +:+ "+" +:+ " " +:+ "a".
Proof. by vm_compute. Qed.

(** ** What a valid chain serializes to *)

(** C5: for every kind sequence that satisfies the singleton and the
    ordering constraint, the chain [builder.k1(v1).k2(v2)...kn(vn)]
    returns a selector, and the selector serializes to the rendered
    pieces concatenated in call order, nothing between them. *)
Theorem valid_chain_serializes p ps σ :
  valid_sequence ((p :: ps).*1) = true →
  ∃ sel σ', chain p ps σ = (Return sel, σ') ∧
    serialized σ' sel = Some (render_all (p :: ps)).
Proof.
  intros Hvalid. eexists _, _. split; [by apply chain_valid|].
  eapply serialized_selector. simpl. by apply list_lookup_middle.
Qed.

Lemma valid_chain_serializes_witness :
  valid_sequence [Id; Class; Class] = true ∧
  ∃ sel σ',
    chain (Id, "main") [(Class, "container"); (Class, "editable")] init
      = (Return sel, σ') ∧
    serialized σ' sel = Some "#main.container.editable".
Proof.
  split; [reflexivity|].
  apply (valid_chain_serializes (Id, "main")
           [(Class, "container"); (Class, "editable")] init).
  reflexivity.
Defined.

(** ** Duplicate singletons *)





(** ** Repeatable kinds *)

(** Once a repeatable kind is in the shared array, appending it again
    has the outcome the validator gave the array as it was. *)
Lemma append_again_same_outcome σ this k str str' :
  is_selector σ this = true → repeatable k = true →
  raised (call_method (ref this) k str' (call_method (ref this) k str σ).2)
    = raised (call_method (ref this) k str σ).
Proof.
  intros Hsel Hk.
  pose proof (exec_is_selector (Append (ref this) k str) _ _ Hsel) as Hsel'.
  pose proof (exec_validArr (Append (ref this) k str) σ) as Harr.
  change (is_selector (call_method (ref this) k str σ).2 this = true) in Hsel'.
  change (validArr (call_method (ref this) k str σ).2
          = if is_selector σ this then validArr σ ++ [name k] else validArr σ)
    in Harr.
  rewrite Hsel in Harr.
  rewrite !raised_append, Harr by done.
  rewrite validArrCheck_push_again; [done..|].
  apply elem_of_app. right. by apply list_elem_of_singleton.
Qed.

(** C7: class, attr and pseudoClass are repeatable. A chain
    [builder.k(v).k(v1)...k(vn)] of one such kind returns, whatever the
    number of calls, and serializes to the rendered pieces in order; and
    on any selector, an append of such a kind that directly repeats an
    accepted append of the same kind is accepted as well. In particular
    [class('a').class('b').class('c')] serializes to [.a.b.c]. *)
Theorem repeatable_kinds_repeat k v vs σ :
  repeatable k = true →
  (∃ sel σ',
     chain (k, v) ((λ x, (k, x)) <$> vs) σ = (Return sel, σ') ∧
     serialized σ' sel = Some (render_all ((k, v) :: ((λ x, (k, x)) <$> vs)))) ∧
  (∀ this str str',
     is_selector σ this = true →
     raised (call_method (ref this) k str σ) = None →
     raised (call_method (ref this) k str' (call_method (ref this) k str σ).2)
       = None) ∧
  (∃ sel σ',
     chain (Class, "a") [(Class, "b"); (Class, "c")] init = (Return sel, σ') ∧
     serialized σ' sel = Some ".a.b.c").
Proof.
  intros Hk. split_and!.
  - assert (valid_sequence (((k, v) :: ((λ x, (k, x)) <$> vs)).*1) = true)
      as Hvalid.
    { rewrite fmap_cons, fst_constant_pairs.
      by apply (valid_sequence_replicate k (S (length vs))). }
    eexists _, _. split; [by apply chain_valid|].
    eapply serialized_selector. simpl. by apply list_lookup_middle.
  - intros this str str' Hsel Haccepted.
    by rewrite append_again_same_outcome.
  - eexists _, _. split; [by vm_compute|]. by vm_compute.
Qed.

Lemma repeatable_kinds_repeat_witness :
  repeatable Attr = true ∧
  ∃ sel σ',
    chain (Attr, "href") ((λ x, (Attr, x)) <$> ["title"; "lang"]) init
      = (Return sel, σ') ∧
    serialized σ' sel = Some "[href][title][lang]".
Proof.
  split; [reflexivity|].
  apply (repeatable_kinds_repeat Attr "href" ["title"; "lang"] init).
  reflexivity.
Defined.

(** ** [combine] *)

(** C8: [combine] never raises for two selector values, whatever the
    token is, and it validates nothing: it neither reads nor writes the
    kind history. *)
Theorem combine_never_raises σ s1 comb s2 :
  selector_value σ s1 → selector_value σ s2 →
  raised (cssSelectorBuilder.combine s1 comb s2 σ) = None ∧
  validArr (cssSelectorBuilder.combine s1 comb s2 σ).2 = validArr σ.
Proof. intros Hs1 Hs2. by rewrite combine_eq. Qed.

(** An operand that is no object at all does make the constructor throw:
    the property read fails. *)
Example combine_undefined_throws :
  raised (cssSelectorBuilder.combine undefined "+" (ref 0)
            (run [Build Element "a"] init)) = Some not_a_selector.
Proof. by vm_compute. Qed.

Lemma combine_never_raises_witness :
  raised
    (cssSelectorBuilder.combine (ref 0) "no such combinator" (ref 1)
       (run [Build PseudoElement "x"; Build Element "y"] init)) = None ∧
  validArr
    (cssSelectorBuilder.combine (ref 0) "no such combinator" (ref 1)
       (run [Build PseudoElement "x"; Build Element "y"] init)).2
    = validArr (run [Build PseudoElement "x"; Build Element "y"] init).
Proof.
  apply (combine_never_raises
           (run [Build PseudoElement "x"; Build Element "y"] init)
           (ref 0) "no such combinator" (ref 1)).
  - vm_compute. by eexists.
  - vm_compute. by eexists.
Defined.

(** C9: an operand of [combine] that is a fragment selector with the
    empty string as its serialization is written as [undefined], on the
    left and on the right, whatever the other operand is; the other
    operand is written as [combine] writes any operand ([operand_text]:
    its own string, or [undefined] when it is an empty fragment too). *)
Theorem empty_fragment_operand_is_undefined σ l other comb :
  is_selector σ l = true →
  serialized σ (ref l) = Some "" →
  selector_value σ other →
  (∃ n σ', cssSelectorBuilder.combine (ref l) comb other σ = (Return n, σ') ∧
     serialized σ' n
       = Some ("undefined" +:+ " " +:+ comb +:+ " " +:+ operand_text σ other)) ∧
  (∃ n σ', cssSelectorBuilder.combine other comb (ref l) σ = (Return n, σ') ∧
     serialized σ' n
       = Some (operand_text σ other +:+ " " +:+ comb +:+ " " +:+ "undefined")).
Proof.
  intros Hsel Hempty Ho.
  pose proof (serialized_selector_value _ _ _ Hempty) as Hl.
  rewrite <-(operand_text_empty_fragment _ _ Hsel Hempty).
  split.
  - destruct (combine_serialized (ref l) comb other σ Hl Ho)
      as (n & σ' & Heq & Hser).
    exists n, σ'. split; [done|]. apply (Hser []).
  - destruct (combine_serialized other comb (ref l) σ Ho Hl)
      as (n & σ' & Heq & Hser).
    exists n, σ'. split; [done|]. apply (Hser []).
Qed.

Lemma empty_fragment_operand_is_undefined_witness :
  serialized (run [Build Element ""; Build Element ""] init) (ref 0) = Some "" ∧
  serialized (run [Build Element ""; Build Element ""] init) (ref 1) = Some "" ∧
  (∃ n σ',
     cssSelectorBuilder.combine (ref 0) "+" (ref 1)
       (run [Build Element ""; Build Element ""] init) = (Return n, σ') ∧
     serialized σ' n = Some "undefined + undefined") ∧
  (∃ n σ',
     cssSelectorBuilder.combine (ref 1) "+" (ref 0)
       (run [Build Element ""; Build Element ""] init) = (Return n, σ') ∧
     serialized σ' n = Some "undefined + undefined").
Proof.
  split; [reflexivity|]. split; [reflexivity|].
  apply (empty_fragment_operand_is_undefined
           (run [Build Element ""; Build Element ""] init) 0 (ref 1) "+").
  - reflexivity.
  - reflexivity.
  - vm_compute. by eexists.
Defined.

(** Next to an operand whose string is not empty, the empty fragment is
    the only part that is not the operand's own string. *)
Lemma empty_fragment_next_to_nonempty σ l other comb t :
  is_selector σ l = true →
  serialized σ (ref l) = Some "" →
  serialized σ other = Some t → t ≠ "" →
  ∃ n σ', cssSelectorBuilder.combine (ref l) comb other σ = (Return n, σ') ∧
    serialized σ' n = Some ("undefined" +:+ " " +:+ comb +:+ " " +:+ t).
Proof.
  intros Hsel Hempty Hother Hne.
  pose proof (serialized_selector_value _ _ _ Hempty) as Hl.
  pose proof (serialized_selector_value _ _ _ Hother) as Ho.
  rewrite <-(operand_text_serialized _ _ _ Hother Hne).
  rewrite <-(operand_text_empty_fragment _ _ Hsel Hempty).
  destruct (combine_serialized (ref l) comb other σ Hl Ho)
    as (n & σ' & Heq & Hser).
  exists n, σ'. split; [done|]. apply (Hser []).
Qed.

(** C10: the string of a combinator node is computed once, by the
    constructor, from what the operands are at that moment; whatever is
    called afterwards on the facade or through the six methods of a
    selector, appends on the operands included, [stringify] on the node
    returns that same string. *)
Theorem combinator_string_is_fixed σ s1 comb s2 cs :
  selector_value σ s1 → selector_value σ s2 →
  ∃ n σ', cssSelectorBuilder.combine s1 comb s2 σ = (Return n, σ') ∧
    serialized σ' n
      = Some (operand_text σ s1 +:+ " " +:+ comb +:+ " " +:+ operand_text σ s2) ∧
    serialized (run cs σ') n = serialized σ' n.
Proof.
  intros Hs1 Hs2.
  destruct (combine_serialized s1 comb s2 σ Hs1 Hs2) as (n & σ' & Heq & Hser).
  exists n, σ'. split_and!; [done|apply (Hser [])|].
  rewrite (Hser cs). symmetry. apply (Hser []).
Qed.

Lemma combinator_string_is_fixed_witness :
  ∃ n σ',
    cssSelectorBuilder.combine (ref 0) "~" (ref 1)
      (run [Build Element "table"; Build Element "tr"] init) = (Return n, σ') ∧
    serialized σ' n
      = Some (operand_text (run [Build Element "table"; Build Element "tr"] init)
                (ref 0) +:+ " " +:+ "~" +:+ " " +:+
              operand_text (run [Build Element "table"; Build Element "tr"] init)
                (ref 1)) ∧
    serialized
      (run [Append (ref 0) Id "data"; Append (ref 1) PseudoClass "hover"] σ') n
      = serialized σ' n.
Proof.
  apply (combinator_string_is_fixed
           (run [Build Element "table"; Build Element "tr"] init)
           (ref 0) "~" (ref 1)
           [Append (ref 0) Id "data"; Append (ref 1) PseudoClass "hover"]).
  - vm_compute. by eexists.
  - vm_compute. by eexists.
Defined.

(** * Further properties of the builder *)

(** ** The validator, outcome by outcome *)

Section ValidatorOutcomes.
Import SelectorClass.
Implicit Types (arr more : list string) (x : string) (i j : nat).
Implicit Types (k X Y : method).

Lemma indexOf_present arr x :
  x ∈ arr → ∃ i, indexOf arr x = Z.of_nat i ∧ arr !! i = Some x.
Proof.
  intros Hx. destruct (indexOf_spec arr x) as [[? _]|(i & Hi & Hix & _)]; [done|].
  eauto.
Qed.

Lemma indexOf_app_l arr more x :
  x ∈ arr → indexOf (arr ++ more) x = indexOf arr x.
Proof.
  intros Hx.
  destruct (indexOf_spec arr x) as [[? _]|(i & -> & Hi & Hbefore)]; [done|].
  apply indexOf_first.
  - by apply lookup_app_l_Some.
  - intros j Hj. rewrite lookup_app_l; [by apply Hbefore|].
    apply lookup_lt_Some in Hi. lia.
Qed.

Lemma validArrCheck_once_cases arr :
  (∀ k, singleton k = true → occurs_twice arr (name k) = false) →
  validArrCheck arr = Return tt ∨ validArrCheck arr = Throw OutOfOrder.
Proof.
  intros Honce.
  cbv [validArrCheck forEach forEach_from sampleOccur sampleOrder slice drop].
  pose proof (Honce Element eq_refl) as H1.
  pose proof (Honce Id eq_refl) as H2.
  pose proof (Honce PseudoElement eq_refl) as H3.
  simpl in H1, H2, H3. rewrite H1, H2, H3.
  repeat match goal with
  | |- context [if out_of_order arr ?a ?b then _ else _] =>
      destruct (out_of_order arr a b); [by auto|]
  end.
  by left.
Qed.

Lemma validArrCheck_Return_order arr X Y :
  validArrCheck arr = Return tt → rank X ≤ rank Y →
  out_of_order arr (name X) (name Y) = false.
Proof.
  intros Hret Hrank.
  destruct (out_of_order arr (name X) (name Y)) eqn:Hout; [|done].
  rewrite (validArrCheck_OutOfOrder arr X Y) in Hret; [done| |done..].
  intros k Hk. by apply validArrCheck_Return_once.
Qed.

Lemma occurs_twice_false arr x :
  occurs_twice arr x = false ↔
  ∀ i j, arr !! i = Some x → arr !! j = Some x → i = j.
Proof.
  split.
  - intros Hfalse i j Hi Hj. destruct (decide (i = j)) as [|Hne]; [done|].
    assert (occurs_twice arr x = true) as Htrue
      by (apply occurs_twice_true; eauto).
    congruence.
  - intros Hunique. destruct (occurs_twice arr x) eqn:Htwice; [|done].
    apply occurs_twice_true in Htwice as (i & j & Hij & Hi & Hj).
    destruct Hij. by apply Hunique.
Qed.

Ltac method_named s :=
  lazymatch s with
  | "element" => constr:(Element)
  | "id" => constr:(Id)
  | "class" => constr:(Class)
  | "attr" => constr:(Attr)
  | "pseudoClass" => constr:(PseudoClass)
  | "pseudoElement" => constr:(PseudoElement)
  end.

(** The second exception comes from one of the pairs the two loops
    visit. *)
Lemma validArrCheck_OutOfOrder_inv arr :
  validArrCheck arr = Throw OutOfOrder →
  ∃ X Y, rank X ≤ rank Y ∧ out_of_order arr (name X) (name Y) = true.
Proof.
  cbv [validArrCheck forEach forEach_from sampleOccur sampleOrder slice drop].
  repeat match goal with
  | |- context [if occurs_twice arr ?a then _ else _] =>
      destruct (occurs_twice arr a); [discriminate|]
  end.
  repeat match goal with
  | |- context [if out_of_order arr ?a ?b then _ else _] =>
      let Hout := fresh "Hout" in
      destruct (out_of_order arr a b) eqn:Hout;
      [ let X := method_named a in
        let Y := method_named b in
        intros _; exists X, Y; split; [simpl; lia|exact Hout]
      | clear Hout ]
  end.
  discriminate.
Qed.

(** The validator accepts an array exactly when every singleton name is
    at one place at most and, of any two kinds that are both there, the
    one of lower precedence has its first place before the first place
    of the other. Nothing is asked of later occurrences. *)
Theorem validArrCheck_accepts_iff arr :
  validArrCheck arr = Return tt ↔
  (∀ k i j, singleton k = true →
     arr !! i = Some (name k) → arr !! j = Some (name k) → i = j) ∧
  (∀ X Y, rank X < rank Y → name X ∈ arr → name Y ∈ arr →
     (indexOf arr (name X) < indexOf arr (name Y))%Z).
Proof.
  split.
  - intros Hret. split.
    + intros k i j Hk. apply occurs_twice_false.
      by apply validArrCheck_Return_once.
    + intros X Y Hrank HX HY.
      pose proof (validArrCheck_Return_order arr X Y Hret) as Hout.
      destruct (indexOf_present _ _ HX) as (i & Hi & Hix).
      destruct (indexOf_present _ _ HY) as (j & Hj & Hjy).
      destruct (decide (i = j)) as [->|Hne].
      { rewrite Hix in Hjy. injection Hjy as Heq.
        apply name_inj in Heq as ->. lia. }
      destruct (decide (j < i)) as [Hlt|Hge]; [|lia].
      assert (out_of_order arr (name X) (name Y) = true) as Htrue
        by (apply out_of_order_true; eauto).
      rewrite Hout in Htrue by lia. done.
  - intros [Hunique Horder]. apply validArrCheck_Return.
    + intros k Hk. apply occurs_twice_false. intros i j. by apply Hunique.
    + intros X Y Hrank.
      destruct (out_of_order arr (name X) (name Y)) eqn:Hout; [|done].
      apply out_of_order_true in Hout as (i & j & Hij & Hi & Hj).
      pose proof (indexOf_lookup _ _ _ Hi) as HX.
      pose proof (indexOf_lookup _ _ _ Hj) as HY.
      apply list_elem_of_lookup_2 in HX, HY.
      destruct (decide (rank X = rank Y)) as [Heq|Hne].
      { apply rank_inj in Heq as ->. rewrite Hi in Hj. lia. }
      assert (rank X < rank Y) as Hlt by lia.
      specialize (Horder X Y Hlt HX HY). lia.
Qed.

(** It throws the first exception exactly when some singleton name is at
    two places, whatever the order of the array is. *)
Theorem validArrCheck_duplicate_iff arr :
  validArrCheck arr = Throw DuplicateSingleton ↔
  ∃ k i j, singleton k = true ∧ i ≠ j ∧
    arr !! i = Some (name k) ∧ arr !! j = Some (name k).
Proof.
  split.
  - intros Hdup.
    destruct (occurs_twice arr (name Element)) eqn:H1.
    { apply occurs_twice_true in H1 as (i & j & ?). exists Element, i, j. done. }
    destruct (occurs_twice arr (name Id)) eqn:H2.
    { apply occurs_twice_true in H2 as (i & j & ?). exists Id, i, j. done. }
    destruct (occurs_twice arr (name PseudoElement)) eqn:H3.
    { apply occurs_twice_true in H3 as (i & j & ?).
      exists PseudoElement, i, j. done. }
    destruct (validArrCheck_once_cases arr) as [Hret|Hooo].
    + intros k Hk. by destruct k.
    + congruence.
    + rewrite Hooo in Hdup. discriminate Hdup.
  - intros (k & i & j & Hk & Hij & Hi & Hj).
    apply (validArrCheck_DuplicateSingleton arr k Hk).
    apply occurs_twice_true. eauto.
Qed.

(** It throws the second exception exactly when no singleton name is at
    two places and two kinds are there with the first place of the lower
    one after the first place of the higher one. *)
Theorem validArrCheck_order_iff arr :
  validArrCheck arr = Throw OutOfOrder ↔
  (∀ k i j, singleton k = true →
     arr !! i = Some (name k) → arr !! j = Some (name k) → i = j) ∧
  (∃ X Y, rank X < rank Y ∧ name Y ∈ arr ∧
     (indexOf arr (name Y) < indexOf arr (name X))%Z).
Proof.
  split.
  - intros Hooo. split.
    + intros k i j Hk Hi Hj. destruct (decide (i = j)) as [|Hne]; [done|].
      assert (validArrCheck arr = Throw DuplicateSingleton) as Hdup.
      { apply (validArrCheck_DuplicateSingleton arr k Hk).
        apply occurs_twice_true. eauto. }
      rewrite Hdup in Hooo. discriminate Hooo.
    + destruct (validArrCheck_OutOfOrder_inv arr Hooo)
        as (X & Y & Hrank & Hout).
      apply out_of_order_true in Hout as (i & j & Hij & Hi & Hj).
      exists X, Y. split_and!.
      * destruct (decide (rank X = rank Y)) as [Heq|]; [|lia].
        apply rank_inj in Heq as ->. rewrite Hi in Hj. lia.
      * eapply list_elem_of_lookup_2. by apply indexOf_lookup.
      * lia.
  - intros [Hunique (X & Y & Hrank & HY & Hlt)].
    apply (validArrCheck_OutOfOrder arr X Y); [|lia|].
    + intros k Hk. apply occurs_twice_false. intros i j. by apply Hunique.
    + destruct (indexOf_present _ _ HY) as (j & Hj & _).
      unfold out_of_order. apply andb_true_iff. split.
      * apply negb_true_iff, Z.eqb_neq. lia.
      * apply Z.gtb_gt. lia.
Qed.

End ValidatorOutcomes.

(** ** A rejection stays until the next construction *)

Section Rejections.
Import SelectorClass.
Implicit Types (arr more : list string) (σ : state) (this : loc).
Implicit Types (k X Y m : method) (cs : list call).

(** What the validator accepts, it accepts cut short at any point. *)
Lemma validArrCheck_prefix arr more :
  validArrCheck (arr ++ more) = Return tt → validArrCheck arr = Return tt.
Proof.
  intros Hret. apply validArrCheck_Return.
  - intros k Hk. apply occurs_twice_false. intros i j Hi Hj.
    pose proof (validArrCheck_Return_once _ k Hret Hk) as Hall.
    apply (proj1 (occurs_twice_false _ _) Hall); by apply lookup_app_l_Some.
  - intros X Y Hrank.
    destruct (out_of_order arr (name X) (name Y)) eqn:Hout; [|done].
    apply out_of_order_true in Hout as (i & j & Hij & Hi & Hj).
    pose proof (indexOf_lookup _ _ _ Hi) as HX.
    pose proof (indexOf_lookup _ _ _ Hj) as HY.
    apply list_elem_of_lookup_2 in HX, HY.
    assert (out_of_order (arr ++ more) (name X) (name Y) = true) as Htrue.
    { apply out_of_order_true. exists i, j.
      by rewrite !indexOf_app_l by done. }
    by rewrite (validArrCheck_Return_order _ X Y Hret Hrank) in Htrue.
Qed.

Lemma run_without_build_grows cs : ∀ σ,
  forallb (λ c, negb (is_build c)) cs = true →
  ∃ more, validArr (run cs σ) = validArr σ ++ more.
Proof.
  induction cs as [|c cs IH]; intros σ Hnb.
  - exists []. by rewrite app_nil_r.
  - simpl in Hnb. apply andb_true_iff in Hnb as [Hc Hnb].
    destruct (IH (exec c σ).2 Hnb) as [more Hmore].
    simpl. rewrite Hmore, exec_validArr.
    destruct c as [|sel m str|]; [done| |by eauto]. simpl.
    destruct sel as [| | |l]; try (by eauto).
    destruct (is_selector σ l); [|by eauto].
    exists ([name m] ++ more). by rewrite app_assoc.
Qed.

(** Once an append has been rejected, every append on every selector is
    rejected, until a facade constructor is called: the rejected name
    stays in the shared array. *)
Theorem rejection_persists σ this m str cs this' m' str' :
  is_selector σ this = true →
  raised (call_method (ref this) m str σ) ≠ None →
  forallb (λ c, negb (is_build c)) cs = true →
  is_selector (run cs (call_method (ref this) m str σ).2) this' = true →
  raised (call_method (ref this') m' str'
            (run cs (call_method (ref this) m str σ).2)) ≠ None.
Proof.
  intros Hsel Hrej Hnb Hsel'.
  rewrite raised_append in Hrej by done.
  rewrite raised_append by done.
  destruct (run_without_build_grows cs (call_method (ref this) m str σ).2 Hnb)
    as [more ->].
  pose proof (exec_validArr (Append (ref this) m str) σ) as Harr.
  change (validArr (call_method (ref this) m str σ).2
          = if is_selector σ this then validArr σ ++ [name m] else validArr σ)
    in Harr.
  rewrite Hsel in Harr. rewrite Harr.
  destruct (validArrCheck (((validArr σ ++ [name m]) ++ more) ++ [name m']))
    as [[]|e] eqn:Hlater; [|done].
  rewrite <-app_assoc in Hlater. apply validArrCheck_prefix in Hlater.
  by rewrite Hlater in Hrej.
Qed.

Lemma rejection_persists_witness :
  raised (call_method (ref 1) PseudoElement "after"
            (run [Append (ref 0) Attr "x"]
               (call_method (ref 0) Id "main"
                  (run [Build Element "p"; Build Class "c"] init)).2)) ≠ None.
Proof.
  apply (rejection_persists (run [Build Element "p"; Build Class "c"] init)
           0 Id "main" [Append (ref 0) Attr "x"] 1 PseudoElement "after").
  - reflexivity.
  - vm_compute. discriminate.
  - reflexivity.
  - reflexivity.
Defined.

End Rejections.

(** ** Chains, accepted and rejected *)

Section AcceptedChains.
Import SelectorClass.
Implicit Types (σ : state) (this : loc) (ps : list (method * string)).

Lemma chain_from_accepted ps : ∀ σ this m0 v0 r,
  heap σ !! this = Some (SelectorObject m0 v0 r) →
  validArrCheck (validArr σ ++ (name <$> ps.*1)) = Return tt →
  chain_from (ref this) ps σ =
    (Return (ref this),
     {| validArr := validArr σ ++ (name <$> ps.*1);
        heap := <[this := SelectorObject m0 v0 (r +:+ render_all ps)]> (heap σ) |}).
Proof.
  induction ps as [|[m v] ps IH]; intros σ this m0 v0 r Hthis Hret.
  - simpl. unfold mret, M_ret. f_equal. destruct σ as [arr h]. simpl in *.
    by rewrite app_nil_r, append_empty_r, list_insert_id.
  - cbn [chain_from]. unfold mbind, M_bind.
    rewrite (call_method_eq _ _ _ _ _ _ _ Hthis), (invoke_eq _ _ _ _ _ _ _ Hthis).
    csimpl in Hret. rewrite cons_middle, app_assoc in Hret.
    rewrite (validArrCheck_prefix _ _ Hret).
    erewrite IH; [| |done].
    + csimpl. rewrite list_insert_insert_eq, append_assoc, <-app_assoc. done.
    + simpl. apply list_lookup_insert_eq. by eapply lookup_lt_Some.
Qed.

Lemma chain_from_returned ps : ∀ σ this m0 v0 r,
  heap σ !! this = Some (SelectorObject m0 v0 r) →
  validArrCheck (validArr σ) = Return tt →
  raised (chain_from (ref this) ps σ) = None →
  validArrCheck (validArr σ ++ (name <$> ps.*1)) = Return tt.
Proof.
  induction ps as [|[m v] ps IH]; intros σ this m0 v0 r Hthis Hnow Hret.
  - csimpl. by rewrite app_nil_r.
  - cbn [chain_from] in Hret. unfold mbind, M_bind in Hret.
    rewrite (call_method_eq _ _ _ _ _ _ _ Hthis), (invoke_eq _ _ _ _ _ _ _ Hthis)
      in Hret.
    destruct (validArrCheck (validArr σ ++ [name m])) as [[]|e] eqn:Hstep;
      [|done].
    csimpl. rewrite cons_middle, app_assoc.
    eapply (IH {| validArr := validArr σ ++ [name m]; heap := _ |});
      [|done|done].
    simpl. apply list_lookup_insert_eq. by eapply lookup_lt_Some.
Qed.

(** A chained expression [builder.m0(v0).m1(v1)...] returns exactly when
    the validator accepts the whole sequence of names, so no chain fails
    half-way on a sequence the validator would accept as a whole. When
    it returns, the selector serializes to every rendered piece in call
    order, whether or not the kinds are sorted. *)
Theorem chain_accepted_iff p ps σ :
  (raised (chain p ps σ) = None ↔
   validArrCheck (name <$> (p :: ps).*1) = Return tt) ∧
  (raised (chain p ps σ) = None →
   serialized (chain p ps σ).2 (ref (length (heap σ)))
     = Some (render_all (p :: ps))).
Proof.
  destruct p as [m v].
  assert (chain (m, v) ps σ =
          chain_from (ref (length (heap σ))) ps
            {| validArr := [name m];
               heap := heap σ ++ [SelectorObject m v (render m v)] |}) as Hchain.
  { unfold chain, mbind, M_bind. by rewrite builder_invoke_eq, new_eq. }
  assert (∀ τ, heap τ = heap σ ++ [SelectorObject m v (render m v)] →
     heap τ !! length (heap σ) = Some (SelectorObject m v (render m v)))
    as Hnew.
  { intros τ ->. by apply list_lookup_middle. }
  assert (validArrCheck (name <$> ((m, v) :: ps).*1) = Return tt →
          chain (m, v) ps σ =
            (Return (ref (length (heap σ))),
             {| validArr := name <$> ((m, v) :: ps).*1;
                heap := heap σ ++ [SelectorObject m v (render_all ((m, v) :: ps))] |}))
    as Haccepted.
  { intros Hret. rewrite Hchain.
    erewrite chain_from_accepted; [|by apply Hnew|done].
    simpl. by rewrite insert_app_r_alt, Nat.sub_diag. }
  assert (raised (chain (m, v) ps σ) = None →
          validArrCheck (name <$> ((m, v) :: ps).*1) = Return tt) as Hreturned.
  { rewrite Hchain. intros Hret.
    eapply (chain_from_returned ps
              {| validArr := [name m]; heap := _ |}) in Hret;
      [done|by apply Hnew|apply validArrCheck_one]. }
  split; [split; [done|]|].
  - intros Hret. by rewrite (Haccepted Hret).
  - intros Hret. rewrite (Haccepted (Hreturned Hret)).
    eapply serialized_selector. simpl. by apply list_lookup_middle.
Qed.

End AcceptedChains.

(** ** What a selector's string is made of *)

Section Strings.
Implicit Types (σ τ : state) (this l : loc) (sel : jsval) (t : string).
Implicit Types (cs : list call).

(** [stringify] looks at nothing but the object its receiver refers
    to. *)
Lemma serialized_same_object σ τ sel t :
  serialized σ sel = Some t →
  (∀ l o, heap σ !! l = Some o → heap τ !! l = Some o) →
  serialized τ sel = Some t.
Proof.
  unfold serialized, stringify. destruct sel as [| | |l]; try done.
  destruct (heap σ !! l) as [o|] eqn:Hl; [|done].
  intros Ht Hsame. rewrite (Hsame _ _ Hl).
  destruct o; revert Ht;
    unfold SelectorClass.stringify, CombineClass.stringify,
      get_classResStr, get_combResStr;
    by rewrite Hl, (Hsame _ _ Hl).
Qed.

(** The facade's constructors return from every state, however the last
    chain ended: the new selector is a fresh object that serializes to
    its one rendered piece, the shared array holds its kind alone, and
    every object that was there serializes as before. *)
Theorem facade_constructor_always_returns m v σ :
  (cssSelectorBuilder.invoke m v σ).1 = Return (ref (length (heap σ))) ∧
  serialized σ (ref (length (heap σ))) = None ∧
  serialized (cssSelectorBuilder.invoke m v σ).2 (ref (length (heap σ)))
    = Some (render m v) ∧
  validArr (cssSelectorBuilder.invoke m v σ).2 = [name m] ∧
  ∀ sel t, serialized σ sel = Some t →
    serialized (cssSelectorBuilder.invoke m v σ).2 sel = Some t.
Proof.
  rewrite builder_invoke_eq, new_eq. split_and!; [done| | |done|].
  - unfold serialized, stringify.
    assert (@lookup loc _ _ _ (length (heap σ)) (heap σ) = None) as ->
      by (by apply lookup_ge_None_2).
    done.
  - eapply serialized_selector. simpl. by apply list_lookup_middle.
  - intros sel t Ht. eapply serialized_same_object; [done|].
    intros l o Hl. simpl. by apply lookup_app_l_Some.
Qed.

(** Whatever its callers do, and whether its appends are accepted or
    rejected, a selector serializes to the string it had followed by
    the rendered pieces of all the appends made on it, in call order:
    calls on other selectors and calls of [combine] add nothing to it. *)
Theorem selector_string_is_its_pieces cs : ∀ σ this m0 v0 r,
  heap σ !! this = Some (SelectorObject m0 v0 r) →
  serialized (run cs σ) (ref this)
    = Some (r +:+ render_all (pieces this cs σ)).
Proof.
  induction cs as [|c cs IH]; intros σ this m0 v0 r Hthis.
  - simpl. rewrite append_empty_r. by eapply serialized_selector.
  - pose proof (exec_state c σ) as Hc. cbn [run pieces].
    pose proof (lookup_lt_Some _ _ _ Hthis) as Hlt.
    destruct c as [m v|sel m str|s1 comb s2].
    + rewrite decide_False, app_nil_l by lia.
      eapply IH. rewrite Hc. simpl heap. by apply lookup_app_l_Some.
    + destruct sel as [| | |l];
        try (rewrite app_nil_l; eapply IH; by rewrite Hc).
      destruct (decide (l = this)) as [->|Hne].
      * rewrite Hthis in Hc. unfold is_selector. rewrite Hthis.
        erewrite IH;
          [|rewrite Hc; simpl heap; by apply list_lookup_insert_eq].
        by rewrite append_assoc.
      * rewrite app_nil_l.
        destruct (heap σ !! l) as [[m1 v1 r1|]|] eqn:Hl;
          try (eapply IH; by rewrite Hc).
        eapply IH. rewrite Hc. simpl heap. by rewrite list_lookup_insert_ne.
    + destruct Hc as [r' Hc]. rewrite app_nil_l.
      eapply IH. rewrite Hc. simpl heap. by apply lookup_app_l_Some.
Qed.

Lemma selector_string_is_its_pieces_witness :
  serialized
    (run [Append (ref 0) Id "x"; Build Element "b"; Append (ref 0) Class "c";
          Combine (ref 0) ">" (ref 1); Append (ref 1) Id "y"]
       (run [Build Class "a"] init)) (ref 0)
    = Some (".a" +:+
            render_all
              (pieces 0
                 [Append (ref 0) Id "x"; Build Element "b";
                  Append (ref 0) Class "c"; Combine (ref 0) ">" (ref 1);
                  Append (ref 1) Id "y"]
                 (run [Build Class "a"] init))).
Proof.
  apply (selector_string_is_its_pieces
           [Append (ref 0) Id "x"; Build Element "b"; Append (ref 0) Class "c";
            Combine (ref 0) ">" (ref 1); Append (ref 1) Id "y"]
           (run [Build Class "a"] init) 0 Class "a" ".a").
  reflexivity.
Defined.

End Strings.

(** ** More on [combine] *)

Section Combinations.
Implicit Types (σ τ : state) (l : loc) (sel : jsval) (t comb : string).

(** [combine] changes no object that is already there, whatever it is
    given as operands, and it leaves the shared array alone. *)
Theorem combine_leaves_objects s1 comb s2 σ sel t :
  serialized σ sel = Some t →
  serialized (cssSelectorBuilder.combine s1 comb s2 σ).2 sel = Some t ∧
  validArr (cssSelectorBuilder.combine s1 comb s2 σ).2 = validArr σ.
Proof.
  intros Ht. destruct (combine_state s1 comb s2 σ) as [r ->].
  split; [|done]. eapply serialized_same_object; [done|].
  intros l o Hl. simpl. by apply lookup_app_l_Some.
Qed.

Lemma combine_leaves_objects_witness :
  serialized
    (cssSelectorBuilder.combine (ref 0) "+" undefined
       (run [Build Element "div"] init)).2 (ref 0) = Some "div" ∧
  validArr
    (cssSelectorBuilder.combine (ref 0) "+" undefined
       (run [Build Element "div"] init)).2
    = validArr (run [Build Element "div"] init).
Proof.
  apply (combine_leaves_objects (ref 0) "+" undefined
           (run [Build Element "div"] init) (ref 0) "div").
  reflexivity.
Defined.

Lemma operand_text_node σ l t :
  is_selector σ l = false → serialized σ (ref l) = Some t →
  operand_text σ (ref l) = t.
Proof.
  unfold is_selector, serialized, stringify, operand_text,
    SelectorClass.stringify, CombineClass.stringify,
    get_classResStr, get_combResStr.
  destruct (heap σ !! l) as [[m v r|s1 c s2 r]|]; simpl; try done.
  by intros _ [= ->].
Qed.

Lemma operand_text_read σ sel t :
  serialized σ sel = Some t →
  (∀ l, sel = ref l → is_selector σ l = true → t ≠ "") →
  operand_text σ sel = t.
Proof.
  intros Ht Hfragment.
  pose proof (serialized_selector_value _ _ _ Ht) as Hsel.
  apply selector_value_lookup in Hsel as (l & o & -> & Hl).
  destruct (is_selector σ l) eqn:Hkind.
  - apply operand_text_serialized; [done|]. by apply (Hfragment l).
  - by apply operand_text_node.
Qed.

(** For operands that are combinator nodes, or fragment selectors whose
    string is not empty, the node serializes to the left string, a
    space, the token, a space, the right string. The same object may be
    given on both sides. *)
Theorem combine_concatenates σ s1 comb s2 t1 t2 :
  serialized σ s1 = Some t1 →
  serialized σ s2 = Some t2 →
  (∀ l, s1 = ref l → is_selector σ l = true → t1 ≠ "") →
  (∀ l, s2 = ref l → is_selector σ l = true → t2 ≠ "") →
  ∃ n σ', cssSelectorBuilder.combine s1 comb s2 σ = (Return n, σ') ∧
    serialized σ' n = Some (t1 +:+ " " +:+ comb +:+ " " +:+ t2).
Proof.
  intros Ht1 Ht2 Hf1 Hf2.
  destruct (combine_serialized s1 comb s2 σ) as (n & σ' & Heq & Hser);
    [by eapply serialized_selector_value..|].
  exists n, σ'. split; [done|].
  rewrite <-(operand_text_read _ _ _ Ht1 Hf1).
  rewrite <-(operand_text_read _ _ _ Ht2 Hf2).
  apply (Hser []).
Qed.

Lemma combine_concatenates_witness :
  ∃ n σ',
    cssSelectorBuilder.combine (ref 2) " " (ref 2)
      (run [Build Element ""; Build Element "";
            Combine (ref 0) "" (ref 1)] init) = (Return n, σ') ∧
    serialized σ' n
      = Some ("undefined  undefined" +:+ " " +:+ " " +:+ " "
              +:+ "undefined  undefined").
Proof.
  apply (combine_concatenates
           (run [Build Element ""; Build Element "";
                 Combine (ref 0) "" (ref 1)] init)
           (ref 2) " " (ref 2) "undefined  undefined" "undefined  undefined").
  - reflexivity.
  - reflexivity.
  - intros l [= <-]. discriminate.
  - intros l [= <-]. discriminate.
Defined.

End Combinations.

(** ** Nesting *)

Section Nesting.
Implicit Types (σ τ : state) (sel a b d : jsval) (t comb : string).

Lemma combine_frame s1 comb s2 σ sel t :
  serialized σ sel = Some t →
  serialized (cssSelectorBuilder.combine s1 comb s2 σ).2 sel = Some t.
Proof.
  intros Ht. destruct (combine_state s1 comb s2 σ) as [r ->].
  eapply serialized_same_object; [done|].
  intros l o Hl. simpl. by apply lookup_app_l_Some.
Qed.

Lemma append_nonempty (t u : string) : t ≠ "" → t +:+ u ≠ "".
Proof. by destruct t. Qed.

(** A nested combination is written without parentheses, so nesting to
    the left and nesting to the right give the same string. *)
Theorem combine_nesting_is_flat σ a b d c1 c2 ta tb td :
  serialized σ a = Some ta → ta ≠ "" →
  serialized σ b = Some tb → tb ≠ "" →
  serialized σ d = Some td → td ≠ "" →
  ∃ n1 σ1 n σ2 m1 τ1 m τ2,
    cssSelectorBuilder.combine a c1 b σ = (Return n1, σ1) ∧
    cssSelectorBuilder.combine n1 c2 d σ1 = (Return n, σ2) ∧
    cssSelectorBuilder.combine b c2 d σ = (Return m1, τ1) ∧
    cssSelectorBuilder.combine a c1 m1 τ1 = (Return m, τ2) ∧
    serialized σ2 n
      = Some (ta +:+ " " +:+ c1 +:+ " " +:+ tb +:+ " " +:+ c2 +:+ " " +:+ td) ∧
    serialized τ2 m = serialized σ2 n.
Proof.
  intros Ha Hna Hb Hnb Hd Hnd.
  destruct (combine_serialized_nonempty σ a c1 b ta tb)
    as (n1 & σ1 & E1 & S1); [done..|].
  destruct (combine_serialized_nonempty σ b c2 d tb td)
    as (m1 & τ1 & F1 & T1); [done..|].
  pose proof (combine_frame a c1 b σ d td Hd) as Hd1. rewrite E1 in Hd1.
  pose proof (combine_frame b c2 d σ a ta Ha) as Ha1. rewrite F1 in Ha1.
  destruct (combine_serialized_nonempty σ1 n1 c2 d _ td S1)
    as (n & σ2 & E2 & S2); [by apply append_nonempty|done..|].
  destruct (combine_serialized_nonempty τ1 a c1 m1 ta _ Ha1 Hna T1)
    as (m & τ2 & F2 & T2); [by apply append_nonempty|].
  exists n1, σ1, n, σ2, m1, τ1, m, τ2. split_and!; [done..| |].
  - rewrite S2. by rewrite !append_assoc.
  - rewrite S2, T2. by rewrite !append_assoc.
Qed.

Lemma combine_nesting_is_flat_witness :
  ∃ n1 σ1 n σ2 m1 τ1 m τ2,
    cssSelectorBuilder.combine (ref 0) "+" (ref 1)
      (run [Build Element "div"; Build Element "table"; Build Element "tr"] init)
      = (Return n1, σ1) ∧
    cssSelectorBuilder.combine n1 "~" (ref 2) σ1 = (Return n, σ2) ∧
    cssSelectorBuilder.combine (ref 1) "~" (ref 2)
      (run [Build Element "div"; Build Element "table"; Build Element "tr"] init)
      = (Return m1, τ1) ∧
    cssSelectorBuilder.combine (ref 0) "+" m1 τ1 = (Return m, τ2) ∧
    serialized σ2 n
      = Some ("div" +:+ " " +:+ "+" +:+ " " +:+ "table" +:+ " " +:+ "~"
              +:+ " " +:+ "tr") ∧
    serialized τ2 m = serialized σ2 n.
Proof.
  apply (combine_nesting_is_flat
           (run [Build Element "div"; Build Element "table"; Build Element "tr"]
              init)
           (ref 0) (ref 1) (ref 2) "+" "~" "div" "table" "tr");
    (reflexivity || discriminate).
Defined.

End Nesting.

(** ** Where a chain stops *)

Section RejectedChains.
Import SelectorClass.
Implicit Types (σ : state) (this : loc) (ps rest : list (method * string)).

Lemma chain_from_app ps rest : ∀ sel σ,
  chain_from sel (ps ++ rest) σ =
    match chain_from sel ps σ with
    | (Return sel', σ') => chain_from sel' rest σ'
    | (Throw e, σ') => (Throw e, σ')
    end.
Proof.
  induction ps as [|[m v] ps IH]; intros sel σ; [done|].
  cbn [app chain_from]. unfold mbind, M_bind.
  destruct (call_method sel m v σ) as [[sel'|e] σ']; [|done]. apply IH.
Qed.

(** A chain whose kinds the validator accepts up to some call and
    rejects with that call throws the exception of that call. The calls
    after it are not made: the selector keeps the rendered pieces up to
    and including the rejected one, and the shared array the names up to
    and including the rejected one. *)
Theorem chain_stops_at_rejection p ps m v rest σ e :
  validArrCheck (name <$> (p :: ps).*1) = Return tt →
  validArrCheck (name <$> (p :: ps ++ [(m, v)]).*1) = Throw e →
  raised (chain p (ps ++ (m, v) :: rest) σ) = Some e ∧
  serialized (chain p (ps ++ (m, v) :: rest) σ).2 (ref (length (heap σ)))
    = Some (render_all (p :: ps ++ [(m, v)])) ∧
  validArr (chain p (ps ++ (m, v) :: rest) σ).2
    = name <$> (p :: ps ++ [(m, v)]).*1.
Proof.
  destruct p as [m0 v0]. intros Hbefore Hthen.
  assert (chain (m0, v0) (ps ++ (m, v) :: rest) σ =
          (Throw e,
           {| validArr := name <$> ((m0, v0) :: ps ++ [(m, v)]).*1;
              heap := heap σ ++
                [SelectorObject m0 v0 (render_all ((m0, v0) :: ps ++ [(m, v)]))] |}))
    as ->.
  { unfold chain, mbind, M_bind. rewrite builder_invoke_eq, new_eq.
    cbn [fst snd]. rewrite chain_from_app.
    erewrite chain_from_accepted;
      [|simpl heap; by apply list_lookup_middle|done].
    cbn [chain_from]. unfold mbind, M_bind.
    erewrite call_method_eq, invoke_eq;
      [|simpl heap; rewrite insert_app_r_alt, Nat.sub_diag by done;
        by apply list_lookup_middle..].
    simpl validArr. simpl heap.
    replace ((name m0 :: (name <$> ps.*1)) ++ [name m])
      with (name <$> ((m0, v0) :: ps ++ [(m, v)]).*1)
      by (csimpl; by rewrite !fmap_app).
    rewrite Hthen. f_equal. f_equal.
    rewrite !insert_app_r_alt, Nat.sub_diag by done. simpl.
    do 3 f_equal.
    assert (∀ qs, render_all (qs ++ [(m, v)]) = render_all qs +:+ render m v)
      as Hlast.
    { induction qs as [|q qs IH]; simpl.
      - by rewrite append_empty_r.
      - by rewrite IH, append_assoc. }
    by rewrite Hlast, !append_assoc. }
  split_and!; [done| |done].
  eapply serialized_selector. simpl. by apply list_lookup_middle.
Qed.

Lemma chain_stops_at_rejection_witness :
  raised (chain (Element, "a") ([(Class, "b")] ++ (Id, "c") :: [(Attr, "d")]) init)
    = Some OutOfOrder ∧
  serialized
    (chain (Element, "a") ([(Class, "b")] ++ (Id, "c") :: [(Attr, "d")]) init).2
    (ref (length (heap init)))
    = Some (render_all ((Element, "a") :: [(Class, "b")] ++ [(Id, "c")])) ∧
  validArr
    (chain (Element, "a") ([(Class, "b")] ++ (Id, "c") :: [(Attr, "d")]) init).2
    = name <$> ((Element, "a") :: [(Class, "b")] ++ [(Id, "c")]).*1.
Proof.
  apply (chain_stops_at_rejection (Element, "a") [(Class, "b")] Id "c"
           [(Attr, "d")] init OutOfOrder); reflexivity.
Defined.

End RejectedChains.
